(** * Output-driver resolution of the GDAL command-line utilities

    Shallow embedding of [apps/commonutils.cpp]:
    [DoesDriverHandleExtension], [GetOutputDriversFor] and
    [GetOutputDriverForRaster].

    The driver manager (read through [GDALGetDriverCount] and
    [GDALGetDriver]) and the CPL error facility (written through [CPLError]
    and [CPLDebug]) are process-wide in the C++ code; here they are the two
    fields of an explicit [World] that every call threads along.

    [CPLGetExtension] and [CSLTokenizeString] live in other files of the
    library: the functions and the theorems take them as parameters, and the
    worked scenarios at the end instantiate them. *)

From Stdlib Require Import Ascii.
From Stdlib Require String.
From stdpp Require Import base numbers list strings.

Local Open Scope Z_scope.

(* ------------------------------------------------------------------ *)
(** ** Strings, as the CPL macros see them *)

Module CPLStr.

Definition is_lower (c : ascii) : bool :=
  ((97 <=? nat_of_ascii c) && (nat_of_ascii c <=? 122))%nat.

Definition is_upper (c : ascii) : bool :=
  ((65 <=? nat_of_ascii c) && (nat_of_ascii c <=? 90))%nat.

(** C [toupper] and [tolower] in the "C" locale. *)
Definition toupper (c : ascii) : ascii :=
  if is_lower c then ascii_of_nat (nat_of_ascii c - 32) else c.

Definition tolower (c : ascii) : ascii :=
  if is_upper c then ascii_of_nat (nat_of_ascii c + 32) else c.

Fixpoint map (f : ascii → ascii) (s : string) : string :=
  match s with
  | EmptyString => EmptyString
  | String c s' => String (f c) (map f s')
  end.

(** [std::string::empty()] *)
Definition empty (s : string) : bool :=
  match s with EmptyString => true | String _ _ => false end.

End CPLStr.

(** Modelled from the spec: [EQUAL] (a macro of cpl_port.h, over
    [strcasecmp]) is case-insensitive string equality. *)
Fixpoint EQUAL (a b : string) : bool :=
  match a, b with
  | EmptyString, EmptyString => true
  | String x a', String y b' =>
      Ascii.eqb (CPLStr.toupper x) (CPLStr.toupper y) && EQUAL a' b'
  | _, _ => false
  end.

(** Modelled from the spec: [STARTS_WITH_CI(a, b)] (a macro of cpl_port.h,
    [strncasecmp(a, b, strlen(b)) == 0]) tells whether [b] is a
    case-insensitive literal prefix of [a]. *)
Fixpoint STARTS_WITH_CI (a b : string) : bool :=
  match b with
  | EmptyString => true
  | String y b' =>
      match a with
      | EmptyString => false
      | String x a' =>
          Ascii.eqb (CPLStr.toupper x) (CPLStr.toupper y) && STARTS_WITH_CI a' b'
      end
  end.

(** [CPLString::endsWith] (cpl_string.h, not part of commonutils.cpp): the
    suffix test of a [std::string], exact in letter case, which is why the
    caller asks for the lower-case and for the upper-case spelling one
    after the other. *)
Definition endsWith (s osStr : string) : bool :=
  if (String.length s <? String.length osStr)%nat then false
  else String.eqb
         (String.substring (String.length s - String.length osStr)
                           (String.length osStr) s)
         osStr.

(** The extension function the worked scenarios run on. *)
Module SpecPath.

Definition is_sep (c : ascii) : bool :=
  Ascii.eqb c "/"%char || Ascii.eqb c "\"%char.

(** The text after the last path separator. *)
Fixpoint filename (path : string) : string :=
  match path with
  | EmptyString => EmptyString
  | String c rest =>
      if existsb is_sep (String.list_ascii_of_string rest) then filename rest
      else if is_sep c then rest else path
  end.

(** The text after the last dot, if there is a dot. *)
Fixpoint after_last_dot (s : string) : option string :=
  match s with
  | EmptyString => None
  | String c rest =>
      match after_last_dot rest with
      | Some e => Some e
      | None => if Ascii.eqb c "."%char then Some rest else None
      end
  end.

(** Modelled from the spec: [CPLGetExtension] (cpl_path.cpp, not part of
    commonutils.cpp) yields the conventional last dot segment of the
    filename, lowercased, and the empty string when the filename has no
    extractable extension. *)
Definition GetExtension (path : string) : string :=
  CPLStr.map CPLStr.tolower
             (default EmptyString (after_last_dot (filename path))).

End SpecPath.

(* ------------------------------------------------------------------ *)
(** ** Drivers and the process-wide state *)

(** What [GDALGetMetadataItem] and [GDALGetDriverShortName] tell about a
    driver handle: every metadata item is either absent ([nullptr]) or a
    string. *)
Record GDALDriver : Type := {
  ShortName : string;
  DCAP_CREATE : option string;
  DCAP_CREATECOPY : option string;
  DCAP_RASTER : option string;
  DCAP_VECTOR : option string;
  DCAP_VECTOR_TRANSLATE_FROM : option string;
  DMD_EXTENSIONS : option string;
  DMD_CONNECTION_PREFIX : option string
}.

(** [p != nullptr] *)
Definition non_null {A} (p : option A) : bool :=
  match p with Some _ => true | None => false end.

(** gdal.h: [#define GDAL_OF_RASTER 0x02], [#define GDAL_OF_VECTOR 0x04]. *)
Definition GDAL_OF_RASTER : Z := 2.
Definition GDAL_OF_VECTOR : Z := 4.

(** [(nFlagRasterVector & flag) != 0] *)
Definition has_flag (nFlagRasterVector flag : Z) : bool :=
  negb (Z.land nFlagRasterVector flag =? 0).

Inductive CPLErr : Type := CE_Warning | CE_Failure.
Inductive CPLErrorNum : Type := CPLE_AppDefined.

(** One call into the CPL error facility. *)
Inductive Diagnostic : Type :=
| Error (eErrClass : CPLErr) (err_no : CPLErrorNum) (msg : string)
| Debug (category msg : string).

Record World : Type := {
  drivers : list GDALDriver;     (* the driver manager, in registration order *)
  emitted : list Diagnostic      (* what the diagnostic sinks received, oldest first *)
}.

(** State-passing computations over the [World]. *)
Definition CPL (A : Type) : Type := World → A * World.

#[global] Instance CPL_ret : MRet CPL := λ A a w, (a, w).

#[global] Instance CPL_bind : MBind CPL :=
  λ A B k m w, let (a, w') := m w in k a w'.

Definition GDALGetDriverCount : CPL nat :=
  λ w, (length (drivers w), w).

Definition GDALGetDriver (i : nat) : CPL (option GDALDriver) :=
  λ w, (drivers w !! i, w).

Definition emit (d : Diagnostic) : CPL unit :=
  λ w, (tt, {| drivers := drivers w; emitted := emitted w ++ [d] |}).

Definition CPLError (eErrClass : CPLErr) (err_no : CPLErrorNum) (msg : string)
  : CPL unit := emit (Error eErrClass err_no msg).

Definition CPLDebug (category msg : string) : CPL unit :=
  emit (Debug category msg).

(** [v[i]] of a [std::vector<CPLString>]; every use below is in range. *)
Definition at_ (v : list string) (i : nat) : string :=
  default EmptyString (v !! i).

(** Reading a log of diagnostics. *)
Definition is_warning (d : Diagnostic) : bool :=
  match d with Error CE_Warning _ _ => true | _ => false end.

Definition is_failure (d : Diagnostic) : bool :=
  match d with Error CE_Failure _ _ => true | _ => false end.

Definition is_debug (d : Diagnostic) : bool :=
  match d with Debug _ _ => true | _ => false end.

Definition warnings (log : list Diagnostic) : list Diagnostic :=
  filter (λ d, is_warning d) log.

Definition failures (log : list Diagnostic) : list Diagnostic :=
  filter (λ d, is_failure d) log.

Definition debugs (log : list Diagnostic) : list Diagnostic :=
  filter (λ d, is_debug d) log.

(** The world after a call that sent [ds] to the diagnostic sinks. *)
Definition log_to (w : World) (ds : list Diagnostic) : World :=
  {| drivers := drivers w; emitted := emitted w ++ ds |}.

(** What the call [m] itself sent to the diagnostic sinks from [w]. *)
Definition said {A} (m : CPL A) (w : World) : list Diagnostic :=
  drop (length (emitted w)) (emitted (m w).2).

(** ** The words of the specification *)

Definition RasterRequested (nFlagRasterVector : Z) : Prop :=
  Z.land nFlagRasterVector GDAL_OF_RASTER ≠ 0.

Definition VectorRequested (nFlagRasterVector : Z) : Prop :=
  Z.land nFlagRasterVector GDAL_OF_VECTOR ≠ 0.

(** Condition (a): the capability condition. *)
Definition capable (nFlagRasterVector : Z) (d : GDALDriver) : Prop :=
  ((is_Some (DCAP_CREATE d) ∨ is_Some (DCAP_CREATECOPY d)) ∧
   ((RasterRequested nFlagRasterVector ∧ is_Some (DCAP_RASTER d)) ∨
    (VectorRequested nFlagRasterVector ∧ is_Some (DCAP_VECTOR d)))) ∨
  (VectorRequested nFlagRasterVector ∧ is_Some (DCAP_VECTOR_TRANSLATE_FROM d)).

(** The driver's extension set, given the tokenizer. *)
Definition ExtensionSet (tokenize : string → list string) (d : GDALDriver)
  : list string :=
  match DMD_EXTENSIONS d with Some exts => tokenize exts | None => [] end.

(** Condition (b), first half: the token is not empty and is in the
    driver's extension set, up to letter case. *)
Definition handles_extension (tokenize : string → list string)
    (token : string) (d : GDALDriver) : Prop :=
  token ≠ "" ∧ ∃ e, e ∈ ExtensionSet tokenize d ∧ EQUAL token e = true.

(** Condition (b), second half: the driver declares a connection prefix
    and it is a prefix of the destination, up to letter case. *)
Definition has_prefix_of (destination : string) (d : GDALDriver) : Prop :=
  ∃ prefix, DMD_CONNECTION_PREFIX d = Some prefix ∧
            STARTS_WITH_CI destination prefix = true.

(** When the GMT/netCDF swap applies: the token is "nc" and the matches are
    two names that read "GMT" and "NETCDF", all three up to letter case. *)
Definition override_fires (token : string) (raw : list string) : Prop :=
  EQUAL token "nc" = true ∧
  ∃ a b, raw = [a; b] ∧ EQUAL a "GMT" = true ∧ EQUAL b "NETCDF" = true.

(* ------------------------------------------------------------------ *)
(** ** Registries for the worked scenarios *)

Module Scenario.

(** A driver that creates rasters. *)
Definition raster_driver (name : string) (exts prefix : option string)
  : GDALDriver :=
  {| ShortName := name;
     DCAP_CREATE := Some "YES"; DCAP_CREATECOPY := Some "YES";
     DCAP_RASTER := Some "YES"; DCAP_VECTOR := None;
     DCAP_VECTOR_TRANSLATE_FROM := None;
     DMD_EXTENSIONS := exts; DMD_CONNECTION_PREFIX := prefix |}.

Definition GTiff : GDALDriver := raster_driver "GTiff" (Some "tif tiff") None.
Definition COG : GDALDriver := raster_driver "COG" (Some "tif tiff") None.
Definition gtiff : GDALDriver := raster_driver "gtiff" (Some "tif tiff") None.
Definition cog : GDALDriver := raster_driver "cog" (Some "tif tiff") None.
Definition GMT : GDALDriver := raster_driver "GMT" (Some "nc") None.
Definition NETCDF : GDALDriver := raster_driver "NETCDF" (Some "nc") None.
Definition netCDF : GDALDriver := raster_driver "netCDF" (Some "nc") None.
Definition netCDF_by_prefix : GDALDriver :=
  raster_driver "netCDF" None (Some "NETCDF:").
Definition DriverA : GDALDriver := raster_driver "DriverA" (Some "foo") None.
Definition PostGISRaster : GDALDriver :=
  raster_driver "PostGISRaster" None (Some "PG:").

(** A world with the given registry and nothing emitted yet. *)
Definition world (registry : list GDALDriver) : World :=
  {| drivers := registry; emitted := [] |}.

End Scenario.

(* ------------------------------------------------------------------ *)
(** ** The other utilities of commonutils.cpp *)

(** *** [EarlySetConfigOptions] *)

(** The configuration store, kept as the journal of the calls to
    [CPLSetConfigOption] (cpl_conv.cpp), oldest first; what a later lookup
    makes of the journal is not the business of this file. *)
Definition ConfigJournal : Type := list (string * string).

Definition CPLSetConfigOption (pszKey pszValue : string) (journal : ConfigJournal)
  : ConfigJournal :=
  journal ++ [(pszKey, pszValue)].

(** [for (int i = ...; i < argc; i++)] of lines 190-203, with [argc] the
    length of [argv]; [fuel] bounds the number of turns. *)
Fixpoint EarlySetConfigOptions_loop (fuel : nat) (argv : list string) (i : nat)
    (journal : ConfigJournal) : ConfigJournal :=
  match fuel with
  | O => journal
  | S fuel' =>
      let argc := length argv in
      if (i <? argc)%nat then
        if EQUAL (at_ argv i) "--config" && (i + 2 <? argc)%nat then
          EarlySetConfigOptions_loop fuel' argv (i + 2 + 1)
            (CPLSetConfigOption (at_ argv (i + 1)) (at_ argv (i + 2)) journal)
        else if EQUAL (at_ argv i) "--debug" && (i + 1 <? argc)%nat then
          EarlySetConfigOptions_loop fuel' argv (i + 1 + 1)
            (CPLSetConfigOption "CPL_DEBUG" (at_ argv (i + 1)) journal)
        else EarlySetConfigOptions_loop fuel' argv (i + 1) journal
      else journal
  end.

(** Every turn moves [i] forward, so [argc] turns are enough. *)
Definition EarlySetConfigOptions (argv : list string) (journal : ConfigJournal)
  : ConfigJournal :=
  EarlySetConfigOptions_loop (length argv) argv 1 journal.

(** The same scan, read off the list of arguments that follow [argv[0]]. *)
Fixpoint early_options (args : list string) : ConfigJournal :=
  match args with
  | [] => []
  | a :: rest =>
      match rest with
      | k :: ((v :: rest') as operands) =>
          if EQUAL a "--config" then (k, v) :: early_options rest'
          else if EQUAL a "--debug" then ("CPL_DEBUG", k) :: early_options operands
          else early_options rest
      | [k] =>
          if EQUAL a "--config" then early_options rest
          else if EQUAL a "--debug" then [("CPL_DEBUG", k)]
          else early_options rest
      | [] => []
      end
  end.

(** *** [GDALRemoveBOM] *)

(** [strlen]: the number of bytes before the first zero byte; [None] when the
    buffer ends before a zero byte is met (a read past the buffer). *)
Fixpoint strlen (s : list Z) : option nat :=
  match s with
  | [] => None
  | b :: s' => if b =? 0 then Some O else S <$> strlen s'
  end.

(** [memmove(buf, buf + off, n)]: the [n] bytes from offset [off] land at
    the front, the bytes from offset [n] on stay; [None] when the source
    range leaves the buffer. *)
Definition memmove_to_front (buf : list Z) (off n : nat) : option (list Z) :=
  if (off + n <=? length buf)%nat
  then Some (take n (drop off buf) ++ drop n buf)
  else None.

(** The buffer is a list of bytes; a read outside it gives [None], and so
    does the whole call then.  [&&] reads its right operand only when the
    left one holds. *)
Definition GDALRemoveBOM (pabyData : list Z) : option (list Z) :=
  b0 ← pabyData !! 0%nat;
  if b0 =? 0xEF then
    b1 ← pabyData !! 1%nat;
    if b1 =? 0xBB then
      b2 ← pabyData !! 2%nat;
      if b2 =? 0xBF then
        n ← strlen (drop 3 pabyData);
        memmove_to_front pabyData 3 (n + 1)
      else Some pabyData
    else Some pabyData
  else Some pabyData.

(** The C string a buffer holds: its bytes up to the first zero byte. *)
Fixpoint c_str (buf : list Z) : list Z :=
  match buf with
  | [] => []
  | b :: buf' => if b =? 0 then [] else b :: c_str buf'
  end.

(** *** [GDALRemoveSQLComments] *)

Definition NUL : ascii := "000"%char.
Definition QUOTE : ascii := "039"%char.
Definition DQUOTE : ascii := "034"%char.
Definition DASH : ascii := "-"%char.

(** [pszLine[i + 1]], where [rest] is what follows [pszLine[i]]: the next
    character, or the terminating zero. *)
Definition next_char (rest : string) : ascii :=
  match rest with String c _ => c | EmptyString => NUL end.

(** Lines 232-258: how far the inner loop gets, counted from where it
    stands, in quote state [chQuote] (zero outside a quoted text). *)
Fixpoint comment_start (chQuote : ascii) (pszLine : string) : nat :=
  match pszLine with
  | EmptyString => O
  | String c rest =>
      if Ascii.eqb c NUL then O
      else if negb (Ascii.eqb chQuote NUL) then
        if Ascii.eqb c chQuote then
          if Ascii.eqb (next_char rest) chQuote then
            match rest with
            | String _ rest' => S (S (comment_start chQuote rest'))
            | EmptyString => 1%nat
            end
          else S (comment_start NUL rest)
        else S (comment_start chQuote rest)
      else if Ascii.eqb c QUOTE || Ascii.eqb c DQUOTE then
        S (comment_start c rest)
      else if Ascii.eqb c DASH && Ascii.eqb (next_char rest) DASH then O
      else S (comment_start NUL rest)
  end.

(** Lines 259-263: what one line adds to [osSQL]. *)
Definition append_line (osSQL pszLine : string) : string :=
  let i := comment_start NUL pszLine in
  (if (0 <? i)%nat then osSQL +:+ String.substring 0 i pszLine else osSQL)
  +:+ " ".

(** [CSLTokenizeStringComplex] (cpl_string.cpp) is a parameter: it is
    called on the input with the delimiters CR and LF and both flags
    [FALSE], and its tokens are the lines. *)
Definition GDALRemoveSQLComments
    (CSLTokenizeStringComplex : string → string → bool → bool → list string)
    (osInput : string) : string :=
  let papszLines :=
    CSLTokenizeStringComplex osInput (String "013" (String "010" "")) false false in
  fold_left append_line papszLines "".

(** The part of a line that is kept. *)
Definition strip_line (pszLine : string) : string :=
  String.substring 0 (comment_start NUL pszLine) pszLine.

(** The line holds no zero character, as any C string. *)
Fixpoint no_NUL (s : string) : bool :=
  match s with
  | EmptyString => true
  | String c rest => negb (Ascii.eqb c NUL) && no_NUL rest
  end.

(** The line holds no quote character. *)
Fixpoint no_quotes (s : string) : bool :=
  match s with
  | EmptyString => true
  | String c rest =>
      negb (Ascii.eqb c QUOTE || Ascii.eqb c DQUOTE) && no_quotes rest
  end.

(** Two dashes follow each other somewhere in the text. *)
Fixpoint has_dash_dash (s : string) : bool :=
  match s with
  | EmptyString => false
  | String c rest =>
      (Ascii.eqb c DASH && Ascii.eqb (next_char rest) DASH) || has_dash_dash rest
  end.

(** The character [q] does not occur in the text. *)
Fixpoint lacks (q : ascii) (s : string) : bool :=
  match s with
  | EmptyString => true
  | String c rest => negb (Ascii.eqb c q) && lacks q rest
  end.

(** *** More drivers for the worked scenarios *)

Module VectorScenario.

(** A driver that only reads vectors and can be translated from. *)
Definition OpenFileGDB : GDALDriver :=
  {| ShortName := "OpenFileGDB";
     DCAP_CREATE := None; DCAP_CREATECOPY := None;
     DCAP_RASTER := None; DCAP_VECTOR := Some "YES";
     DCAP_VECTOR_TRANSLATE_FROM := Some "YES";
     DMD_EXTENSIONS := Some "gdb tif"; DMD_CONNECTION_PREFIX := None |}.

(** A driver that creates vectors. *)
Definition GPKG : GDALDriver :=
  {| ShortName := "GPKG";
     DCAP_CREATE := Some "YES"; DCAP_CREATECOPY := None;
     DCAP_RASTER := None; DCAP_VECTOR := Some "YES";
     DCAP_VECTOR_TRANSLATE_FROM := None;
     DMD_EXTENSIONS := Some "gpkg tif"; DMD_CONNECTION_PREFIX := None |}.

End VectorScenario.

(* ------------------------------------------------------------------ *)
(** ** The resolution functions *)

Section Resolution.

(** [CPLGetExtension] (cpl_path.cpp) and [CSLTokenizeString]
    (cpl_string.cpp) are not part of commonutils.cpp: whatever they
    compute, the functions below use them as the C++ code does. *)
Variable CPLGetExtension : string → string.
Variable CSLTokenizeString : string → list string.

Definition DoesDriverHandleExtension (hDriver : GDALDriver) (pszExt : string)
  : bool :=
  match DMD_EXTENSIONS hDriver with
  | Some pszDriverExtensions =>
      existsb (λ papszToken, EQUAL pszExt papszToken)
              (CSLTokenizeString pszDriverExtensions)
  | None => false
  end.

(** Lines 74-86 of [GetOutputDriversFor]: the extension the drivers are
    matched against. *)
Definition OutputExtension (pszDestFilename : string) : string :=
  let osExt := CPLGetExtension pszDestFilename in
  if EQUAL osExt "zip" &&
     (endsWith pszDestFilename ".shp.zip" ||
      endsWith pszDestFilename ".SHP.ZIP")
  then "shp.zip"
  else if EQUAL osExt "zip" &&
          (endsWith pszDestFilename ".gpkg.zip" ||
           endsWith pszDestFilename ".GPKG.ZIP")
  then "gpkg.zip"
  else osExt.

(** Lines 91-110: the capability test, [bOk]. *)
Definition bOk (hDriver : GDALDriver) (nFlagRasterVector : Z) : bool :=
  if (non_null (DCAP_CREATE hDriver) || non_null (DCAP_CREATECOPY hDriver)) &&
     ((has_flag nFlagRasterVector GDAL_OF_RASTER &&
       non_null (DCAP_RASTER hDriver)) ||
      (has_flag nFlagRasterVector GDAL_OF_VECTOR &&
       non_null (DCAP_VECTOR hDriver)))
  then true
  else if non_null (DCAP_VECTOR_TRANSLATE_FROM hDriver) &&
          has_flag nFlagRasterVector GDAL_OF_VECTOR
  then true
  else false.

(** Lines 111-126: what one turn of the loop does to [aoDriverList]. *)
Definition visit (pszDestFilename osExt : string) (nFlagRasterVector : Z)
    (hDriver : GDALDriver) (aoDriverList : list string) : list string :=
  if bOk hDriver nFlagRasterVector then
    if negb (CPLStr.empty osExt) && DoesDriverHandleExtension hDriver osExt
    then aoDriverList ++ [ShortName hDriver]
    else
      match DMD_CONNECTION_PREFIX hDriver with
      | Some pszPrefix =>
          if STARTS_WITH_CI pszDestFilename pszPrefix
          then aoDriverList ++ [ShortName hDriver]
          else aoDriverList
      | None => aoDriverList
      end
  else aoDriverList.

(** [for (int i = ...; i < nDriverCount; i++)], with [todo] turns left. *)
Fixpoint driver_loop (pszDestFilename osExt : string) (nFlagRasterVector : Z)
    (todo i : nat) (aoDriverList : list string) : CPL (list string) :=
  match todo with
  | O => mret aoDriverList
  | S todo' =>
      hDriver ← GDALGetDriver i;
      driver_loop pszDestFilename osExt nFlagRasterVector todo' (S i)
        match hDriver with
        | Some h => visit pszDestFilename osExt nFlagRasterVector h aoDriverList
        | None => aoDriverList
        end
  end.

(** Lines 131-132: the test of the GMT/netCDF swap. *)
Definition gmt_before_netcdf (osExt : string) (aoDriverList : list string)
  : bool :=
  EQUAL osExt "nc" && (length aoDriverList =? 2)%nat &&
  EQUAL (at_ aoDriverList 0) "GMT" && EQUAL (at_ aoDriverList 1) "NETCDF".

(** Lines 87-127: the registry walked from its first driver to its last;
    the value is [aoDriverList] as it stands at line 127. *)
Definition MatchingDrivers (pszDestFilename osExt : string)
    (nFlagRasterVector : Z) : CPL (list string) :=
  nDriverCount ← GDALGetDriverCount;
  driver_loop pszDestFilename osExt nFlagRasterVector nDriverCount 0 [].

Definition GetOutputDriversFor (pszDestFilename : string)
    (nFlagRasterVector : Z) : CPL (list string) :=
  let osExt := OutputExtension pszDestFilename in
  aoDriverList ← MatchingDrivers pszDestFilename osExt nFlagRasterVector;
  if gmt_before_netcdf osExt aoDriverList
  then mret ["NETCDF"; "GMT"]
  else mret aoDriverList.

(** Lines 176-177, where both non-error paths end. *)
Definition using_driver (osFormat : string) : CPL string :=
  CPLDebug "GDAL" ("Using " +:+ osFormat +:+ " driver");;
  mret osFormat.

Definition GetOutputDriverForRaster (pszDestFilename : string) : CPL string :=
  aoDrivers ← GetOutputDriversFor pszDestFilename GDAL_OF_RASTER;
  let osExt := CPLGetExtension pszDestFilename in
  if (length aoDrivers =? 0)%nat then
    if CPLStr.empty osExt then using_driver "GTiff"
    else
      CPLError CE_Failure CPLE_AppDefined
               ("Cannot guess driver for " +:+ pszDestFilename);;
      mret ""
  else
    (if (1 <? length aoDrivers)%nat &&
        negb (String.eqb (at_ aoDrivers 0) "GTiff" &&
              String.eqb (at_ aoDrivers 1) "COG")
     then CPLError CE_Warning CPLE_AppDefined
                   ("Several drivers matching " +:+ osExt +:+
                    " extension. Using " +:+ at_ aoDrivers 0)
     else mret tt);;
    using_driver (at_ aoDrivers 0).

(** *** The same, read off as plain functions of the registry *)

(** Conditions (a) and (b) of the matcher, for one driver. *)
Definition eligible (pszDestFilename osExt : string) (nFlagRasterVector : Z)
    (hDriver : GDALDriver) : bool :=
  bOk hDriver nFlagRasterVector &&
  ((negb (CPLStr.empty osExt) && DoesDriverHandleExtension hDriver osExt) ||
   match DMD_CONNECTION_PREFIX hDriver with
   | Some pszPrefix => STARTS_WITH_CI pszDestFilename pszPrefix
   | None => false
   end).

(** The value of [MatchingDrivers]: the eligible drivers' names, in
    registry order. *)
Definition MatchResult (registry : list GDALDriver) (pszDestFilename : string)
    (nFlagRasterVector : Z) : list string :=
  ShortName <$>
    filter (λ h, eligible pszDestFilename (OutputExtension pszDestFilename)
                          nFlagRasterVector h)
           registry.

(** The value of [GetOutputDriversFor]. *)
Definition ResolveDrivers (registry : list GDALDriver) (pszDestFilename : string)
    (nFlagRasterVector : Z) : list string :=
  let raw := MatchResult registry pszDestFilename nFlagRasterVector in
  if gmt_before_netcdf (OutputExtension pszDestFilename) raw
  then ["NETCDF"; "GMT"] else raw.

(** The selection table of [GetOutputDriverForRaster]: from the candidate
    list and the raw extension to the value handed back and the diagnostics
    sent, in order. *)
Definition raster_policy (aoDrivers : list string) (osExt dest : string)
  : string * list Diagnostic :=
  match aoDrivers with
  | [] =>
      if CPLStr.empty osExt
      then ("GTiff", [Debug "GDAL" "Using GTiff driver"])
      else ("", [Error CE_Failure CPLE_AppDefined
                       ("Cannot guess driver for " +:+ dest)])
  | [a] => (a, [Debug "GDAL" ("Using " +:+ a +:+ " driver")])
  | a :: b :: _ =>
      if String.eqb a "GTiff" && String.eqb b "COG"
      then (a, [Debug "GDAL" ("Using " +:+ a +:+ " driver")])
      else (a, [Error CE_Warning CPLE_AppDefined
                      ("Several drivers matching " +:+ osExt +:+
                       " extension. Using " +:+ a);
                Debug "GDAL" ("Using " +:+ a +:+ " driver")])
  end.

(* ------------------------------------------------------------------ *)
(** ** Facts about the string helpers *)

Lemma ascii_eqb_sym (x y : ascii) : Ascii.eqb x y = Ascii.eqb y x.
Proof.
  destruct (Ascii.eqb_spec x y) as [->|Hne].
  - symmetry. apply Ascii.eqb_refl.
  - symmetry. apply Ascii.eqb_neq. congruence.
Qed.

Lemma EQUAL_refl (a : string) : EQUAL a a = true.
Proof.
  induction a as [|c a IH]; simpl; [done|].
  by rewrite Ascii.eqb_refl, IH.
Qed.

Lemma EQUAL_sym (a b : string) : EQUAL a b = EQUAL b a.
Proof.
  revert b. induction a as [|x a IH]; intros [|y b]; simpl; try done.
  by rewrite ascii_eqb_sym, IH.
Qed.

Lemma EQUAL_upper (a b : string) :
  EQUAL a b = true ↔ CPLStr.map CPLStr.toupper a = CPLStr.map CPLStr.toupper b.
Proof.
  revert b. induction a as [|x a IH]; intros [|y b]; simpl; try done.
  rewrite andb_true_iff, IH, Ascii.eqb_eq. split.
  - by intros [-> ->].
  - intros [= -> ->]. done.
Qed.

Lemma EQUAL_trans (a b c : string) :
  EQUAL a b = true → EQUAL b c = true → EQUAL a c = true.
Proof. rewrite !EQUAL_upper. congruence. Qed.

Lemma empty_true (s : string) : CPLStr.empty s = true ↔ s = "".
Proof. by destruct s. Qed.

Lemma empty_false (s : string) : CPLStr.empty s = false ↔ s ≠ "".
Proof. by destruct s. Qed.

Lemma string_length_app (p t : string) :
  String.length (p +:+ t) = (String.length p + String.length t)%nat.
Proof. induction p as [|c p IH]; simpl; [done|]. by rewrite IH. Qed.

Lemma substring_all (t : string) : String.substring 0 (String.length t) t = t.
Proof. induction t as [|c t IH]; simpl; [done|]. by rewrite IH. Qed.

Lemma substring_skip (p t : string) :
  String.substring (String.length p) (String.length t) (p +:+ t) = t.
Proof. induction p as [|c p IH]; simpl; [apply substring_all|apply IH]. Qed.

Lemma substring_split (s : string) (n m : nat) :
  (n + m = String.length s)%nat →
  ∃ p, String.length p = n ∧ s = p +:+ String.substring n m s.
Proof.
  revert s. induction n as [|n IH]; intros s Hlen.
  - exists "". split; [done|]. simpl in Hlen. subst m.
    by rewrite substring_all.
  - destruct s as [|c s]; simpl in Hlen; [lia|].
    destruct (IH s) as (p & Hp & Hs); [lia|].
    exists (String c p). split; [simpl; by rewrite Hp|].
    change (String c s = String c (p +:+ String.substring n m s)).
    by rewrite <- Hs.
Qed.

(** [endsWith] is the suffix test. *)
Lemma endsWith_spec (s t : string) :
  endsWith s t = true ↔ ∃ p, s = p +:+ t.
Proof.
  unfold endsWith. split.
  - destruct (Nat.ltb_spec (String.length s) (String.length t)); [done|].
    intros Heq%String.eqb_eq.
    destruct (substring_split s (String.length s - String.length t)
                (String.length t)) as (p & _ & Hs); [lia|].
    exists p. by rewrite Heq in Hs.
  - intros [p ->]. rewrite string_length_app.
    destruct (Nat.ltb_spec (String.length p + String.length t)
                (String.length t)); [lia|].
    replace (String.length p + String.length t - String.length t)%nat
      with (String.length p) by lia.
    rewrite substring_skip. apply String.eqb_refl.
Qed.

Lemma gmt_before_netcdf_spec (token : string) (raw : list string) :
  gmt_before_netcdf token raw = true ↔ override_fires token raw.
Proof.
  unfold gmt_before_netcdf, override_fires, at_.
  rewrite !andb_true_iff, Nat.eqb_eq. split.
  - intros [[[Hnc Hlen] Ha] Hb].
    destruct raw as [|a [|b [|? ?]]]; simplify_eq/=. eauto 6.
  - intros (Hnc & a & b & -> & Ha & Hb). done.
Qed.

Lemma not_gmt_before_netcdf (token : string) (raw : list string) :
  gmt_before_netcdf token raw = false ↔ ¬ override_fires token raw.
Proof.
  rewrite <- gmt_before_netcdf_spec. by destruct (gmt_before_netcdf _ _).
Qed.

(* ------------------------------------------------------------------ *)
(** ** The loop and the calls, run on a world *)

(** One turn of the loop appends the driver's name exactly when the
    driver is eligible. *)
Lemma visit_eligible dest ext flags h acc :
  visit dest ext flags h acc =
  if eligible dest ext flags h then acc ++ [ShortName h] else acc.
Proof.
  unfold visit, eligible.
  destruct (bOk h flags); simpl; [|done].
  destruct (negb (CPLStr.empty ext) && _); simpl; [done|].
  by destruct (DMD_CONNECTION_PREFIX h).
Qed.

(** The loop leaves the world alone and appends, in registry order, the
    names of the eligible drivers among the [todo] ones from index [i]. *)
Lemma driver_loop_run dest ext flags todo i acc w :
  driver_loop dest ext flags todo i acc w =
  (acc ++ (ShortName <$>
             filter (λ h, eligible dest ext flags h)
                    (take todo (drop i (drivers w)))),
   w).
Proof.
  revert i acc. induction todo as [|todo IH]; intros i acc.
  - simpl. by rewrite app_nil_r.
  - cbn [driver_loop]. unfold mbind, CPL_bind, GDALGetDriver.
    rewrite IH. f_equal.
    destruct (drivers w !! i) as [h|] eqn:Hi.
    + rewrite (drop_S _ _ _ Hi). cbn [take]. rewrite filter_cons.
      rewrite visit_eligible.
      destruct (eligible dest ext flags h) eqn:He.
      * rewrite decide_True by done. rewrite fmap_cons.
        by rewrite <- app_assoc.
      * rewrite decide_False by (intros []). done.
    + apply lookup_ge_None in Hi.
      rewrite !drop_ge by lia. by rewrite !take_nil.
Qed.

Lemma MatchingDrivers_run dest flags w :
  MatchingDrivers dest (OutputExtension dest) flags w =
  (MatchResult (drivers w) dest flags, w).
Proof.
  unfold MatchingDrivers, mbind, CPL_bind, GDALGetDriverCount.
  rewrite driver_loop_run. unfold MatchResult.
  by rewrite drop_0, firstn_all.
Qed.

(** [GetOutputDriversFor] reads the registry and changes nothing. *)
Lemma GetOutputDriversFor_run dest flags w :
  GetOutputDriversFor dest flags w = (ResolveDrivers (drivers w) dest flags, w).
Proof.
  unfold GetOutputDriversFor, ResolveDrivers, mbind, CPL_bind.
  rewrite MatchingDrivers_run.
  by destruct (gmt_before_netcdf _ _).
Qed.

Lemma said_log_to {A} (m : CPL A) (w : World) (a : A) (ds : list Diagnostic) :
  m w = (a, log_to w ds) → said m w = ds.
Proof. unfold said. intros ->. simpl. by rewrite drop_app_length. Qed.

(** [GetOutputDriverForRaster] follows the selection table and only adds
    to the diagnostics. *)
Lemma GetOutputDriverForRaster_run dest w :
  GetOutputDriverForRaster dest w =
  let (osFormat, ds) :=
    raster_policy (ResolveDrivers (drivers w) dest GDAL_OF_RASTER)
                  (CPLGetExtension dest) dest in
  (osFormat, log_to w ds).
Proof.
  unfold GetOutputDriverForRaster, mbind, CPL_bind.
  rewrite GetOutputDriversFor_run.
  destruct (ResolveDrivers (drivers w) dest GDAL_OF_RASTER) as [|a [|b rest]].
  - simpl. by destruct (CPLStr.empty (CPLGetExtension dest)).
  - done.
  - unfold at_, raster_policy.
    cbn [length Nat.eqb Nat.ltb Nat.leb lookup list_lookup default id andb].
    destruct (String.eqb a "GTiff" && String.eqb b "COG"); [done|].
    unfold using_driver, CPLError, CPLDebug, emit, log_to, mbind, CPL_bind,
      mret, CPL_ret.
    cbn. by rewrite <- app_assoc.
Qed.

Lemma GetOutputDriverForRaster_value dest w :
  (GetOutputDriverForRaster dest w).1 =
  (raster_policy ((GetOutputDriversFor dest GDAL_OF_RASTER w).1)
                 (CPLGetExtension dest) dest).1.
Proof.
  rewrite GetOutputDriverForRaster_run, GetOutputDriversFor_run. simpl.
  by destruct (raster_policy _ _ _).
Qed.

Lemma GetOutputDriverForRaster_said dest w :
  said (GetOutputDriverForRaster dest) w =
  (raster_policy ((GetOutputDriversFor dest GDAL_OF_RASTER w).1)
                 (CPLGetExtension dest) dest).2.
Proof.
  rewrite GetOutputDriversFor_run. simpl.
  destruct (raster_policy _ _ _) as [r ds] eqn:Hp.
  apply (said_log_to _ _ r). by rewrite GetOutputDriverForRaster_run, Hp.
Qed.

Lemma GetOutputDriverForRaster_world dest w :
  (GetOutputDriverForRaster dest w).2 =
  log_to w (said (GetOutputDriverForRaster dest) w).
Proof.
  rewrite GetOutputDriverForRaster_said.
  rewrite GetOutputDriverForRaster_run, GetOutputDriversFor_run. simpl.
  by destruct (raster_policy _ _ _).
Qed.

(* ------------------------------------------------------------------ *)
(** ** Single-driver selection for rasters *)

(** The only call with class [CE_Failure]: "Cannot guess driver". *)
Lemma raster_policy_failures matches ext dest :
  failures (raster_policy matches ext dest).2 =
  if decide (matches = [] ∧ ext ≠ "")
  then [Error CE_Failure CPLE_AppDefined ("Cannot guess driver for " +:+ dest)]
  else [].
Proof.
  case_decide as Hd.
  - destruct Hd as [-> Hext]. apply empty_false in Hext. simpl.
    by rewrite Hext.
  - destruct matches as [|a [|b rest]]; simpl; [|done|].
    + destruct ext; [done|]. exfalso. by apply Hd.
    + by destruct (String.eqb a "GTiff" && String.eqb b "COG").
Qed.

Lemma raster_policy_debugs matches ext dest :
  debugs (raster_policy matches ext dest).2 =
  if decide (matches = [] ∧ ext ≠ "")
  then []
  else [Debug "GDAL" ("Using " +:+ (raster_policy matches ext dest).1 +:+
                      " driver")].
Proof.
  case_decide as Hd.
  - destruct Hd as [-> Hext]. apply empty_false in Hext. simpl.
    by rewrite Hext.
  - destruct matches as [|a [|b rest]]; simpl; [|done|].
    + destruct ext; [done|]. exfalso. by apply Hd.
    + by destruct (String.eqb a "GTiff" && String.eqb b "COG").
Qed.

Lemma GTiff_COG_eqb (a b : string) :
  String.eqb a "GTiff" && String.eqb b "COG" = true ↔ a = "GTiff" ∧ b = "COG".
Proof. by rewrite andb_true_iff, !String.eqb_eq. Qed.

(** C1: when the candidate list is empty, [GetOutputDriverForRaster] selects
    "GTiff" if the destination has no extension, and fails ([CE_Failure],
    "Cannot guess driver", empty result) if the extension is not empty; a
    failure is raised in exactly that case. *)
Theorem C1_empty_match_default_or_error dest w :
  ((GetOutputDriversFor dest GDAL_OF_RASTER w).1 = [] →
   (CPLGetExtension dest = "" →
    GetOutputDriverForRaster dest w =
    ("GTiff", log_to w [Debug "GDAL" "Using GTiff driver"])) ∧
   (CPLGetExtension dest ≠ "" →
    GetOutputDriverForRaster dest w =
    ("", log_to w [Error CE_Failure CPLE_AppDefined
                         ("Cannot guess driver for " +:+ dest)]))) ∧
  (failures (said (GetOutputDriverForRaster dest) w) ≠ [] ↔
   (GetOutputDriversFor dest GDAL_OF_RASTER w).1 = [] ∧
   CPLGetExtension dest ≠ "").
Proof.
  split.
  - rewrite GetOutputDriversFor_run. simpl. intros Hnone.
    rewrite GetOutputDriverForRaster_run, Hnone. simpl.
    split; intros Hext.
    + by rewrite Hext.
    + apply empty_false in Hext. by rewrite Hext.
  - rewrite GetOutputDriverForRaster_said, raster_policy_failures.
    case_decide; [|tauto]. split; [done|]. by intros _.
Qed.

(** C5: with more than one candidate, the pair "GTiff", "COG" in front gives
    "GTiff" without a warning; anything else gives the first candidate with
    exactly one warning that names it, and no failure.  Every call that does
    not fail sends one debug message naming the driver it returns. *)
Theorem C5_several_candidates dest w :
  (∀ a b rest,
     (GetOutputDriversFor dest GDAL_OF_RASTER w).1 = a :: b :: rest →
     (a = "GTiff" ∧ b = "COG" →
      (GetOutputDriverForRaster dest w).1 = "GTiff" ∧
      warnings (said (GetOutputDriverForRaster dest) w) = []) ∧
     (¬ (a = "GTiff" ∧ b = "COG") →
      (GetOutputDriverForRaster dest w).1 = a ∧
      warnings (said (GetOutputDriverForRaster dest) w) =
        [Error CE_Warning CPLE_AppDefined
               ("Several drivers matching " +:+ CPLGetExtension dest +:+
                " extension. Using " +:+ a)] ∧
      failures (said (GetOutputDriverForRaster dest) w) = [])) ∧
  (¬ ((GetOutputDriversFor dest GDAL_OF_RASTER w).1 = [] ∧
      CPLGetExtension dest ≠ "") →
   debugs (said (GetOutputDriverForRaster dest) w) =
     [Debug "GDAL" ("Using " +:+ (GetOutputDriverForRaster dest w).1 +:+
                    " driver")]).
Proof.
  split.
  - intros a b rest Hm.
    rewrite GetOutputDriverForRaster_value, GetOutputDriverForRaster_said, Hm.
    simpl. split.
    + intros [-> ->]. done.
    + intros Hne.
      destruct (String.eqb a "GTiff" && String.eqb b "COG") eqn:Hpair.
      * by apply GTiff_COG_eqb in Hpair.
      * done.
  - intros Hok.
    rewrite GetOutputDriverForRaster_value, GetOutputDriverForRaster_said.
    rewrite raster_policy_debugs. by rewrite decide_False.
Qed.

(** C9: the test for the "GTiff", "COG" pair is exact: two front candidates
    that read "GTiff" and "COG" only up to letter case still get the
    several-drivers warning. *)
Theorem C9_GTiff_COG_case_sensitive dest w a b rest :
  (GetOutputDriversFor dest GDAL_OF_RASTER w).1 = a :: b :: rest →
  EQUAL a "GTiff" = true → EQUAL b "COG" = true →
  ¬ (a = "GTiff" ∧ b = "COG") →
  warnings (said (GetOutputDriverForRaster dest) w) =
    [Error CE_Warning CPLE_AppDefined
           ("Several drivers matching " +:+ CPLGetExtension dest +:+
            " extension. Using " +:+ a)].
Proof.
  intros Hm _ _ Hne. rewrite GetOutputDriverForRaster_said, Hm. simpl.
  destruct (String.eqb a "GTiff" && String.eqb b "COG") eqn:Hpair; [|done].
  by apply GTiff_COG_eqb in Hpair.
Qed.

(** C10: on the failure path the result is the empty string and no debug
    message is sent; a debug message is sent exactly on the other paths. *)
Theorem C10_failure_returns_empty_no_debug dest w :
  ((GetOutputDriversFor dest GDAL_OF_RASTER w).1 = [] ∧
   CPLGetExtension dest ≠ "" →
   (GetOutputDriverForRaster dest w).1 = "" ∧
   debugs (said (GetOutputDriverForRaster dest) w) = []) ∧
  (debugs (said (GetOutputDriverForRaster dest) w) ≠ [] ↔
   ¬ ((GetOutputDriversFor dest GDAL_OF_RASTER w).1 = [] ∧
      CPLGetExtension dest ≠ "")).
Proof.
  rewrite GetOutputDriverForRaster_value, GetOutputDriverForRaster_said.
  rewrite raster_policy_debugs. split.
  - intros [Hm Hext]. rewrite decide_True by done. rewrite Hm. simpl.
    apply empty_false in Hext. by rewrite Hext.
  - case_decide; split; try done; tauto.
Qed.

(* ------------------------------------------------------------------ *)
(** ** The matcher, condition by condition *)

Lemma non_null_spec {A} (p : option A) : non_null p = true ↔ is_Some p.
Proof. destruct p; simpl; [by eauto|]. split; [done|]. by intros [? ?]. Qed.

Lemma has_flag_RASTER flags :
  has_flag flags GDAL_OF_RASTER = true ↔ RasterRequested flags.
Proof.
  unfold has_flag, RasterRequested. by rewrite negb_true_iff, Z.eqb_neq.
Qed.

Lemma has_flag_VECTOR flags :
  has_flag flags GDAL_OF_VECTOR = true ↔ VectorRequested flags.
Proof.
  unfold has_flag, VectorRequested. by rewrite negb_true_iff, Z.eqb_neq.
Qed.

(** [bOk] is condition (a). *)
Lemma bOk_spec d flags : bOk d flags = true ↔ capable flags d.
Proof.
  unfold bOk, capable.
  rewrite <- !non_null_spec, <- has_flag_RASTER, <- has_flag_VECTOR.
  rewrite <- !andb_true_iff, <- !orb_true_iff, <- !andb_true_iff,
    <- !orb_true_iff.
  by destruct (non_null (DCAP_CREATE d)), (non_null (DCAP_CREATECOPY d)),
    (has_flag flags GDAL_OF_RASTER), (non_null (DCAP_RASTER d)),
    (has_flag flags GDAL_OF_VECTOR), (non_null (DCAP_VECTOR d)),
    (non_null (DCAP_VECTOR_TRANSLATE_FROM d)).
Qed.

Lemma DoesDriverHandleExtension_spec d ext :
  DoesDriverHandleExtension d ext = true ↔
  ∃ e, e ∈ ExtensionSet CSLTokenizeString d ∧ EQUAL ext e = true.
Proof.
  unfold DoesDriverHandleExtension, ExtensionSet.
  destruct (DMD_EXTENSIONS d) as [exts|].
  - rewrite existsb_exists. by setoid_rewrite list_elem_of_In.
  - split; [done|]. by intros (e & ?%not_elem_of_nil & _).
Qed.

(** A driver is eligible exactly when it meets (a) and (b). *)
Lemma eligible_spec dest token flags d :
  eligible dest token flags d = true ↔
  capable flags d ∧
  (handles_extension CSLTokenizeString token d ∨ has_prefix_of dest d).
Proof.
  unfold eligible, handles_extension, has_prefix_of.
  rewrite andb_true_iff, orb_true_iff, andb_true_iff, negb_true_iff.
  rewrite bOk_spec, empty_false, DoesDriverHandleExtension_spec.
  destruct (DMD_CONNECTION_PREFIX d) as [prefix|].
  - split.
    + intros [? [[? ?]|?]]; eauto 6.
    + intros [? [[? ?]|(p & [= <-] & ?)]]; auto.
  - split.
    + intros [? [[? ?]|?]]; [eauto|done].
    + intros [? [[? ?]|(p & ? & ?)]]; [auto|done].
Qed.

Lemma elem_of_MatchResult_1 registry dest flags d :
  d ∈ registry →
  eligible dest (OutputExtension dest) flags d = true →
  ShortName d ∈ MatchResult registry dest flags.
Proof.
  intros Hd He. unfold MatchResult.
  apply list_elem_of_fmap_2, list_elem_of_filter. split; [|done].
  by rewrite He.
Qed.

Lemma elem_of_MatchResult_2 registry dest flags d :
  NoDup (ShortName <$> registry) → d ∈ registry →
  ShortName d ∈ MatchResult registry dest flags →
  eligible dest (OutputExtension dest) flags d = true.
Proof.
  intros Hnodup Hd (d' & Hname & [He Hd']%list_elem_of_filter)%list_elem_of_fmap.
  assert (d = d') as ->; [|by apply Is_true_true].
  clear He. induction registry as [|x l IH]; [by apply not_elem_of_nil in Hd|].
  rewrite fmap_cons in Hnodup. apply NoDup_cons in Hnodup as [Hx Hl].
  apply elem_of_cons in Hd as [->|Hd], Hd' as [->|Hd']; auto.
  - exfalso. apply Hx. rewrite Hname. by apply list_elem_of_fmap_2.
  - exfalso. apply Hx. rewrite <- Hname. by apply list_elem_of_fmap_2.
Qed.

Lemma MatchResult_sublist registry dest flags :
  MatchResult registry dest flags `sublist_of` (ShortName <$> registry).
Proof. unfold MatchResult. apply fmap_sublist, sublist_filter. Qed.

(** What [GetOutputDriversFor] returns, by whether the swap applies. *)
Lemma ResolveDrivers_cases registry dest flags :
  let raw := MatchResult registry dest flags in
  (override_fires (OutputExtension dest) raw ∧
   ResolveDrivers registry dest flags = ["NETCDF"; "GMT"]) ∨
  (¬ override_fires (OutputExtension dest) raw ∧
   ResolveDrivers registry dest flags = raw).
Proof.
  unfold ResolveDrivers. simpl.
  destruct (gmt_before_netcdf _ _) eqn:Hg.
  - left. by apply gmt_before_netcdf_spec in Hg.
  - right. by apply not_gmt_before_netcdf in Hg.
Qed.

(** Runs the matcher and the whole call on [w], then splits on whether the
    swap applies. *)
Local Ltac swap_cases w dest flags :=
  rewrite ?MatchingDrivers_run, ?GetOutputDriversFor_run; simpl;
  destruct (ResolveDrivers_cases (drivers w) dest flags)
    as [[? ->]|[? ->]].

(** The names the swap puts in the list stand for the two matches. *)
Lemma override_names token raw n :
  override_fires token raw → n ∈ raw →
  ∃ m, m ∈ ["NETCDF"; "GMT"] ∧ EQUAL m n = true.
Proof.
  intros (_ & a & b & -> & Ha & Hb) Hn.
  apply elem_of_cons in Hn as [->|Hn].
  - exists "GMT". split; [apply list_elem_of_further, list_elem_of_here|].
    by rewrite EQUAL_sym.
  - apply list_elem_of_singleton in Hn as ->.
    exists "NETCDF". split; [apply list_elem_of_here|]. by rewrite EQUAL_sym.
Qed.

Lemma override_changes token raw :
  override_fires token raw → ["NETCDF"; "GMT"] ≠ raw.
Proof. intros (_ & a & b & -> & Ha & _) [= <- _]. done. Qed.

(** C3, as the code has it: the swap applies exactly when the token is "nc"
    and the matches are two names reading "GMT" and "NETCDF", each compared
    without regard to letter case; the result is then "NETCDF", "GMT".  In
    every other case the matches are returned as the loop built them. *)
Theorem C3_override_up_to_case dest flags w :
  let token := OutputExtension dest in
  let raw := (MatchingDrivers dest token flags w).1 in
  let final := (GetOutputDriversFor dest flags w).1 in
  (override_fires token raw → final = ["NETCDF"; "GMT"]) ∧
  (¬ override_fires token raw → final = raw) ∧
  (final ≠ raw ↔ override_fires token raw).
Proof.
  intros token raw final. subst raw final token.
  swap_cases w dest flags.
  - split_and!; [done|done|]. split; [done|]. intros _.
    by eapply override_changes.
  - split_and!; [done|done|]. split; [done|]. done.
Qed.

(** C4, as the code has it: in a registry with unique short names, the
    list the loop builds names a driver if and only if the driver meets (a)
    and (b); [GetOutputDriversFor] returns that list unless the GMT/netCDF
    swap applies, and then returns "NETCDF", "GMT", which name the two
    matched drivers up to letter case. *)
Theorem C4_included_iff_capable_and_matching dest flags w d :
  NoDup (ShortName <$> drivers w) → d ∈ drivers w →
  let token := OutputExtension dest in
  let raw := (MatchingDrivers dest token flags w).1 in
  let final := (GetOutputDriversFor dest flags w).1 in
  let meets :=
    capable flags d ∧
    (handles_extension CSLTokenizeString token d ∨ has_prefix_of dest d) in
  (ShortName d ∈ raw ↔ meets) ∧
  (¬ override_fires token raw → (ShortName d ∈ final ↔ meets)) ∧
  (override_fires token raw →
   final = ["NETCDF"; "GMT"] ∧
   (meets → ∃ n, n ∈ final ∧ EQUAL n (ShortName d) = true)).
Proof.
  intros Hnodup Hd token raw final meets. subst raw final.
  rewrite MatchingDrivers_run, GetOutputDriversFor_run. simpl.
  assert (ShortName d ∈ MatchResult (drivers w) dest flags ↔ meets) as Hraw.
  { unfold meets. rewrite <- eligible_spec. split.
    - by apply elem_of_MatchResult_2.
    - by apply elem_of_MatchResult_1. }
  swap_cases w dest flags.
  - split_and!; [done|done|]. intros _. split; [done|].
    intros Hm%Hraw. by eapply override_names.
  - split_and!; [done|done|done].
Qed.

(** C6, as the code has it: a capable driver whose connection prefix is a
    case-insensitive prefix of the destination is in the list the loop
    builds, whatever its extensions; it is in the returned list under its own
    short name unless the swap applies, and always up to letter case. *)
Theorem C6_prefix_match_included dest flags w d :
  d ∈ drivers w → capable flags d → has_prefix_of dest d →
  let token := OutputExtension dest in
  let raw := (MatchingDrivers dest token flags w).1 in
  let final := (GetOutputDriversFor dest flags w).1 in
  ShortName d ∈ raw ∧
  (¬ override_fires token raw → ShortName d ∈ final) ∧
  (∃ n, n ∈ final ∧ EQUAL n (ShortName d) = true).
Proof.
  intros Hd Hcap Hprefix token raw final. subst raw final.
  rewrite MatchingDrivers_run, GetOutputDriversFor_run. simpl.
  assert (ShortName d ∈ MatchResult (drivers w) dest flags) as Hraw.
  { apply elem_of_MatchResult_1; [done|]. apply eligible_spec. auto. }
  swap_cases w dest flags.
  - split_and!; [done|done|]. by eapply override_names.
  - split_and!; [done|done|]. exists (ShortName d). split; [done|].
    apply EQUAL_refl.
Qed.

(** C7, as the code has it: the call always returns and leaves the world
    as it was; the returned list keeps the registry order unless the
    GMT/netCDF swap applies, in which case it is "NETCDF", "GMT"; with unique
    short names in the registry it never holds a name twice. *)
Theorem C7_order_unless_swapped dest flags w :
  let token := OutputExtension dest in
  let raw := (MatchingDrivers dest token flags w).1 in
  let names := ShortName <$> drivers w in
  let final := (GetOutputDriversFor dest flags w).1 in
  (GetOutputDriversFor dest flags w).2 = w ∧
  raw `sublist_of` names ∧
  (¬ override_fires token raw → final `sublist_of` names) ∧
  (override_fires token raw → final = ["NETCDF"; "GMT"]) ∧
  (NoDup names → NoDup final).
Proof.
  intros token raw names final. subst raw names final.
  pose proof (MatchResult_sublist (drivers w) dest flags) as Hsub.
  swap_cases w dest flags.
  - split_and!; [done|done|done|done|]. intros _.
    apply NoDup_cons. split; [|apply NoDup_singleton].
    by intros [=]%list_elem_of_singleton.
  - split_and!; [done|done|done|done|]. intros Hnodup.
    by eapply sublist_NoDup.
Qed.

(** Every path of the selection table sends a diagnostic. *)
Lemma raster_policy_says_something matches ext dest :
  (raster_policy matches ext dest).2 ≠ [].
Proof.
  destruct matches as [|a [|b rest]]; simpl.
  - by destruct (CPLStr.empty ext).
  - done.
  - by destruct (String.eqb a "GTiff" && String.eqb b "COG").
Qed.

(** C8, as the code has it: both functions are functions of the registry
    and the destination alone.  [GetOutputDriversFor] is pure: it leaves the
    world untouched.  [GetOutputDriverForRaster] is not: it leaves the
    registry untouched, but every call adds at least one diagnostic to the
    error facility, and only adds; called again, also after a failure, it
    hands back the same value and sends the same diagnostics. *)
Theorem C8_deterministic_and_registry_preserving dest flags w w' :
  drivers w' = drivers w →
  (GetOutputDriversFor dest flags w).2 = w ∧
  (GetOutputDriversFor dest flags w').1 = (GetOutputDriversFor dest flags w).1 ∧
  drivers (GetOutputDriverForRaster dest w).2 = drivers w ∧
  emitted (GetOutputDriverForRaster dest w).2 =
    emitted w ++ said (GetOutputDriverForRaster dest) w ∧
  said (GetOutputDriverForRaster dest) w ≠ [] ∧
  (GetOutputDriverForRaster dest w).2 ≠ w ∧
  (GetOutputDriverForRaster dest w').1 = (GetOutputDriverForRaster dest w).1 ∧
  said (GetOutputDriverForRaster dest) w' =
    said (GetOutputDriverForRaster dest) w ∧
  (let w1 := (GetOutputDriverForRaster dest w).2 in
   (GetOutputDriverForRaster dest w1).1 = (GetOutputDriverForRaster dest w).1 ∧
   said (GetOutputDriverForRaster dest) w1 =
     said (GetOutputDriverForRaster dest) w ∧
   drivers (GetOutputDriverForRaster dest w1).2 = drivers w).
Proof.
  intros Hsame.
  assert (∀ v, drivers v = drivers w →
            (GetOutputDriverForRaster dest v).1 =
              (GetOutputDriverForRaster dest w).1 ∧
            said (GetOutputDriverForRaster dest) v =
              said (GetOutputDriverForRaster dest) w) as Hdet.
  { intros v Hv.
    rewrite !GetOutputDriverForRaster_value, !GetOutputDriverForRaster_said.
    rewrite !GetOutputDriversFor_run. simpl. by rewrite Hv. }
  assert (drivers (GetOutputDriverForRaster dest w).2 = drivers w) as Hreg.
  { by rewrite GetOutputDriverForRaster_world. }
  split; [by rewrite GetOutputDriversFor_run|].
  split; [rewrite !GetOutputDriversFor_run; simpl; by rewrite Hsame|].
  split; [done|].
  split; [by rewrite GetOutputDriverForRaster_world|].
  assert (said (GetOutputDriverForRaster dest) w ≠ []) as Hsaid.
  { rewrite GetOutputDriverForRaster_said. apply raster_policy_says_something. }
  split; [done|].
  split.
  { rewrite GetOutputDriverForRaster_world. intros Hw.
    apply (f_equal emitted) in Hw. simpl in Hw.
    apply (f_equal length) in Hw. rewrite length_app in Hw.
    destruct (said (GetOutputDriverForRaster dest) w); [done|].
    simpl in Hw. lia. }
  split; [by apply Hdet|]. split; [by apply Hdet|].
  cbv zeta. split; [by apply Hdet|]. split; [by apply Hdet|].
  rewrite GetOutputDriverForRaster_world. simpl.
  by rewrite GetOutputDriverForRaster_world.
Qed.

(* ------------------------------------------------------------------ *)
(** ** The extension the drivers are matched against *)

Lemma endsWith_false (s t : string) :
  endsWith s t = false ↔ ∀ p, s ≠ p +:+ t.
Proof.
  destruct (endsWith s t) eqn:He.
  - apply endsWith_spec in He as [p ->]. split; [done|].
    intros Hp. by destruct (Hp p).
  - split; [|done]. intros _ p ->.
    assert (endsWith (p +:+ t) t = true) by (apply endsWith_spec; eauto).
    congruence.
Qed.

Lemma string_app_nil (t : string) : "" +:+ t = t.
Proof. reflexivity. Qed.

Lemma string_app_cons (c : ascii) (s t : string) :
  String c s +:+ t = String c (s +:+ t).
Proof. reflexivity. Qed.

(** Two suffixes of one string, one a letter longer than the other. *)
Lemma app_suffix_tail (p1 p2 : string) (c : ascii) (t1 t2 : string) :
  String.length t1 = String.length t2 →
  p1 +:+ String c t1 = p2 +:+ t2 → t1 = t2.
Proof.
  intros Hlen. revert p2.
  induction p1 as [|a p1 IH]; intros [|b p2];
    rewrite ?string_app_nil, ?string_app_cons; intros Heq.
  - apply (f_equal String.length) in Heq. simpl in Heq. lia.
  - injection Heq as _ Heq.
    assert (String.length p2 = 0%nat) as Hp2.
    { apply (f_equal String.length) in Heq.
      rewrite string_length_app in Heq. lia. }
    destruct p2; [done|discriminate Hp2].
  - apply (f_equal String.length) in Heq.
    simpl in Heq. rewrite string_length_app in Heq. simpl in Heq. lia.
  - injection Heq as _ Heq. by apply IH in Heq.
Qed.

Lemma gpkg_is_not_shp (f : string) :
  endsWith f ".gpkg.zip" = true ∨ endsWith f ".GPKG.ZIP" = true →
  endsWith f ".shp.zip" || endsWith f ".SHP.ZIP" = false.
Proof.
  intros Hg. apply orb_false_iff.
  split; apply endsWith_false; intros p2 ->;
    destruct Hg as [[p1 Heq]%endsWith_spec|[p1 Heq]%endsWith_spec];
    symmetry in Heq; by apply app_suffix_tail in Heq.
Qed.

Lemma OutputExtension_shp (f : string) :
  EQUAL (CPLGetExtension f) "zip" = true →
  endsWith f ".shp.zip" = true ∨ endsWith f ".SHP.ZIP" = true →
  OutputExtension f = "shp.zip".
Proof.
  unfold OutputExtension. intros -> Hshp. apply orb_true_iff in Hshp.
  by rewrite Hshp.
Qed.

Lemma OutputExtension_gpkg (f : string) :
  EQUAL (CPLGetExtension f) "zip" = true →
  endsWith f ".gpkg.zip" = true ∨ endsWith f ".GPKG.ZIP" = true →
  OutputExtension f = "gpkg.zip".
Proof.
  unfold OutputExtension. intros -> Hgpkg.
  rewrite (gpkg_is_not_shp f Hgpkg). apply orb_true_iff in Hgpkg.
  by rewrite Hgpkg.
Qed.

Lemma OutputExtension_other (f : string) :
  endsWith f ".shp.zip" = false → endsWith f ".SHP.ZIP" = false →
  endsWith f ".gpkg.zip" = false → endsWith f ".GPKG.ZIP" = false →
  OutputExtension f = CPLGetExtension f.
Proof.
  unfold OutputExtension. intros -> -> -> ->. simpl.
  by rewrite andb_false_r.
Qed.

(** C2, as the code has it: a filename whose extension reads "zip" and that
    ends in ".shp.zip" or ".SHP.ZIP", spelled exactly so, gets the token
    "shp.zip"; one that ends in ".gpkg.zip" or ".GPKG.ZIP" gets "gpkg.zip".
    A filename with none of these four endings keeps the extension
    [CPLGetExtension] gave. *)
Theorem C2_zip_aliases_two_spellings f :
  (EQUAL (CPLGetExtension f) "zip" = true →
   ((∃ p, f = p +:+ ".shp.zip" ∨ f = p +:+ ".SHP.ZIP") →
    OutputExtension f = "shp.zip") ∧
   ((∃ p, f = p +:+ ".gpkg.zip" ∨ f = p +:+ ".GPKG.ZIP") →
    OutputExtension f = "gpkg.zip")) ∧
  ((∀ p, f ≠ p +:+ ".shp.zip" ∧ f ≠ p +:+ ".SHP.ZIP" ∧
         f ≠ p +:+ ".gpkg.zip" ∧ f ≠ p +:+ ".GPKG.ZIP") →
   OutputExtension f = CPLGetExtension f).
Proof.
  split.
  - intros Hzip. split; intros [p Hp].
    + apply OutputExtension_shp; [done|].
      destruct Hp; [left|right]; apply endsWith_spec; eauto.
    + apply OutputExtension_gpkg; [done|].
      destruct Hp; [left|right]; apply endsWith_spec; eauto.
  - intros Hnone.
    apply OutputExtension_other; apply endsWith_false; intros p; apply Hnone.
Qed.

(* ------------------------------------------------------------------ *)
(** ** Further properties of the resolution functions *)

(** The matcher run with any extension, not only the one of the
    destination. *)
Lemma MatchingDrivers_run_any dest ext flags w :
  MatchingDrivers dest ext flags w =
  (ShortName <$> filter (λ h, eligible dest ext flags h) (drivers w), w).
Proof.
  unfold MatchingDrivers, mbind, CPL_bind, GDALGetDriverCount.
  rewrite driver_loop_run. by rewrite drop_0, firstn_all.
Qed.

(** X13: a single candidate is selected silently: the call returns it and
    sends only the debug message, no warning. *)
Theorem X13_single_candidate_selected_silently dest w a :
  (GetOutputDriversFor dest GDAL_OF_RASTER w).1 = [a] →
  GetOutputDriverForRaster dest w =
  (a, log_to w [Debug "GDAL" ("Using " +:+ a +:+ " driver")]).
Proof.
  rewrite GetOutputDriversFor_run. simpl. intros Hone.
  by rewrite GetOutputDriverForRaster_run, Hone.
Qed.

(** X14: when the GMT/netCDF swap applies to a raster request, the raster
    selection returns "NETCDF", with the several-drivers warning naming
    NETCDF and the debug message. *)
Theorem X14_swap_then_select_NETCDF dest w :
  override_fires (OutputExtension dest)
    (MatchingDrivers dest (OutputExtension dest) GDAL_OF_RASTER w).1 →
  GetOutputDriverForRaster dest w =
  ("NETCDF",
   log_to w [Error CE_Warning CPLE_AppDefined
                   ("Several drivers matching " +:+ CPLGetExtension dest +:+
                    " extension. Using " +:+ "NETCDF");
             Debug "GDAL" "Using NETCDF driver"]).
Proof.
  rewrite MatchingDrivers_run. simpl. intros Hfires.
  rewrite GetOutputDriverForRaster_run.
  destruct (ResolveDrivers_cases (drivers w) dest GDAL_OF_RASTER)
    as [[_ ->]|[Hno _]]; [done|by destruct Hno].
Qed.

(** X15: a request with neither the raster nor the vector flag matches no
    driver. *)
Theorem X15_no_flag_no_driver dest flags w :
  Z.land flags GDAL_OF_RASTER = 0 → Z.land flags GDAL_OF_VECTOR = 0 →
  (GetOutputDriversFor dest flags w).1 = [].
Proof.
  intros Hraster Hvector. rewrite GetOutputDriversFor_run. simpl.
  assert (MatchResult (drivers w) dest flags = []) as Hraw.
  { unfold MatchResult.
    induction (drivers w) as [|d l IH]; [done|].
    rewrite filter_cons, decide_False; [done|].
    intros [Hcap _]%Is_true_true%eligible_spec.
    destruct Hcap as [[_ [[H _]|[H _]]]|[H _]]; by apply H. }
  unfold ResolveDrivers, gmt_before_netcdf. rewrite Hraw.
  cbn [length Nat.eqb]. by rewrite andb_false_r.
Qed.

(** X16: without the vector flag only drivers that are raster drivers and
    can create or copy are matched; declaring the vector capability or
    DCAP_VECTOR_TRANSLATE_FROM does not qualify a driver. *)
Theorem X16_raster_request_matches_raster_creators dest ext flags w n :
  Z.land flags GDAL_OF_VECTOR = 0 →
  n ∈ (MatchingDrivers dest ext flags w).1 →
  ∃ d, d ∈ drivers w ∧ ShortName d = n ∧
       is_Some (DCAP_RASTER d) ∧
       (is_Some (DCAP_CREATE d) ∨ is_Some (DCAP_CREATECOPY d)).
Proof.
  intros Hvector. rewrite MatchingDrivers_run_any. simpl.
  intros (d & -> & [He Hd]%list_elem_of_filter)%list_elem_of_fmap.
  apply Is_true_true, eligible_spec in He as [Hcap _].
  exists d. split; [done|]. split; [done|].
  destruct Hcap as [[Hcreate [[_ Hr]|[Hv _]]]|[Hv _]];
    [done|by destruct (Hv Hvector)..].
Qed.

(** X17: the token is empty exactly when the extension of the destination
    is. *)
Theorem X17_token_empty_iff_extension_empty dest :
  OutputExtension dest = "" ↔ CPLGetExtension dest = "".
Proof.
  unfold OutputExtension.
  destruct (CPLGetExtension dest) as [|c ext] eqn:Hext; [done|].
  destruct (EQUAL (String c ext) "zip" && _); [done|].
  by destruct (EQUAL (String c ext) "zip" && _).
Qed.

(** X18: a destination without extension is matched by connection prefix
    only: the result names exactly the capable drivers whose prefix starts
    the destination, in registry order, and the swap never applies. *)
Theorem X18_no_extension_matches_by_prefix_only dest flags w :
  CPLGetExtension dest = "" →
  (GetOutputDriversFor dest flags w).1 =
    (MatchingDrivers dest (OutputExtension dest) flags w).1 ∧
  ∀ n, n ∈ (GetOutputDriversFor dest flags w).1 ↔
       ∃ d, d ∈ drivers w ∧ ShortName d = n ∧
            capable flags d ∧ has_prefix_of dest d.
Proof.
  intros Hext. apply X17_token_empty_iff_extension_empty in Hext as Htoken.
  rewrite MatchingDrivers_run, GetOutputDriversFor_run. simpl.
  assert (ResolveDrivers (drivers w) dest flags =
          MatchResult (drivers w) dest flags) as ->.
  { unfold ResolveDrivers, gmt_before_netcdf. rewrite Htoken.
    by cbn [EQUAL andb]. }
  split; [done|]. intros n. unfold MatchResult.
  rewrite list_elem_of_fmap. split.
  - intros (d & -> & [He Hd]%list_elem_of_filter).
    apply Is_true_true, eligible_spec in He as [Hcap [[Hne _]|Hprefix]];
      [done|eauto].
  - intros (d & Hd & <- & Hcap & Hprefix). exists d. split; [done|].
    apply list_elem_of_filter. split; [|done].
    apply Is_true_true, eligible_spec. auto.
Qed.

Lemma EQUAL_empty (a b : string) :
  EQUAL a b = true → CPLStr.empty a = CPLStr.empty b.
Proof. by destruct a, b. Qed.

Lemma EQUAL_left (a a' b : string) :
  EQUAL a a' = true → EQUAL a b = EQUAL a' b.
Proof.
  intros Haa. destruct (EQUAL a b) eqn:Hab, (EQUAL a' b) eqn:Ha'b; try done.
  - rewrite EQUAL_sym in Haa.
    by rewrite (EQUAL_trans _ _ _ Haa Hab) in Ha'b.
  - by rewrite (EQUAL_trans _ _ _ Haa Ha'b) in Hab.
Qed.

Lemma EQUAL_STARTS_WITH_CI (a a' p : string) :
  EQUAL a a' = true → STARTS_WITH_CI a p = STARTS_WITH_CI a' p.
Proof.
  revert a a'. induction p as [|y p IH]; intros a a' Haa;
    [by destruct a, a'|].
  destruct a as [|x a], a' as [|x' a']; try done.
  cbn [EQUAL] in Haa. apply andb_true_iff in Haa as [Hx%Ascii.eqb_eq Haa].
  cbn [STARTS_WITH_CI]. by rewrite Hx, (IH a a' Haa).
Qed.

(** X19: matching ignores letter case: two destinations and two extensions
    that differ in letter case only give the same list of matches. *)
Theorem X19_matching_ignores_letter_case dest dest' ext ext' flags w :
  EQUAL dest dest' = true → EQUAL ext ext' = true →
  MatchingDrivers dest ext flags w = MatchingDrivers dest' ext' flags w.
Proof.
  intros Hdest Hext. rewrite !MatchingDrivers_run_any. do 2 f_equal.
  apply list_filter_iff. intros d.
  assert (eligible dest ext flags d = eligible dest' ext' flags d) as ->;
    [|done].
  unfold eligible, DoesDriverHandleExtension.
  rewrite (EQUAL_empty ext ext' Hext). do 3 f_equal.
  - destruct (DMD_EXTENSIONS d) as [exts|]; [|done].
    induction (CSLTokenizeString exts) as [|t l IH]; [done|].
    cbn [existsb]. by rewrite (EQUAL_left ext ext' t Hext), IH.
  - destruct (DMD_CONNECTION_PREFIX d); [|done].
    by apply EQUAL_STARTS_WITH_CI.
Qed.

(** X20: the result never holds more names than the registry holds
    drivers. *)
Theorem X20_no_more_names_than_drivers dest flags w :
  (length (GetOutputDriversFor dest flags w).1 ≤ length (drivers w))%nat.
Proof.
  rewrite GetOutputDriversFor_run. simpl.
  pose proof (sublist_length _ _ (MatchResult_sublist (drivers w) dest flags))
    as Hlen.
  rewrite length_fmap in Hlen.
  destruct (ResolveDrivers_cases (drivers w) dest flags)
    as [[(_ & a & b & Hraw & _) ->]|[_ ->]]; [|done].
  by rewrite Hraw in Hlen.
Qed.

(** X21: what the raster selection returns is a short name of the
    registry, or one of the fixed names "GTiff" (the default) and "NETCDF"
    (after the swap), or the empty string (on failure). *)
Theorem X21_selected_name_origin dest w :
  let osFormat := (GetOutputDriverForRaster dest w).1 in
  osFormat ∈ ShortName <$> drivers w ∨
  osFormat = "GTiff" ∨ osFormat = "NETCDF" ∨ osFormat = "".
Proof.
  simpl. rewrite GetOutputDriverForRaster_value, GetOutputDriversFor_run. simpl.
  pose proof (MatchResult_sublist (drivers w) dest GDAL_OF_RASTER) as Hsub.
  destruct (ResolveDrivers_cases (drivers w) dest GDAL_OF_RASTER)
    as [[_ ->]|[_ ->]]; [by right; right; left|].
  destruct (MatchResult (drivers w) dest GDAL_OF_RASTER) as [|a [|b rest]] eqn:Hraw.
  - simpl. destruct (CPLStr.empty _); auto.
  - left. simpl. eapply elem_of_sublist; [|done]. apply list_elem_of_here.
  - left. assert (a ∈ ShortName <$> drivers w) as Ha
      by (eapply elem_of_sublist; [|done]; apply list_elem_of_here).
    simpl. by destruct (String.eqb a "GTiff" && String.eqb b "COG").
Qed.

End Resolution.

(* ------------------------------------------------------------------ *)
(** ** Worked scenarios

    The calls below run with the extension function modelled from the
    specification and with [String.words] splitting the space-separated
    extension lists. *)

Import Scenario.

Local Abbreviation DriversFor :=
  (GetOutputDriversFor SpecPath.GetExtension String.words).
Local Abbreviation DriverForRaster :=
  (GetOutputDriverForRaster SpecPath.GetExtension String.words).
Local Abbreviation Token := (OutputExtension SpecPath.GetExtension).
Local Abbreviation Matching :=
  (MatchingDrivers String.words).

(** The scenarios of the specification. *)
Example scenario_DriverA :
  (DriversFor "out.foo" GDAL_OF_RASTER (world [DriverA])).1 = ["DriverA"] ∧
  (DriverForRaster "out.foo" (world [DriverA])).1 = "DriverA".
Proof. by vm_compute. Qed.

Example scenario_empty_registry_xyz :
  DriverForRaster "out.xyz" (world []) =
  ("", log_to (world [])
         [Error CE_Failure CPLE_AppDefined "Cannot guess driver for out.xyz"]).
Proof. by vm_compute. Qed.

Example scenario_empty_registry_noext :
  (DriverForRaster "noext" (world [])).1 = "GTiff".
Proof. by vm_compute. Qed.

Lemma C1_witness :
  DriverForRaster "noext" (world []) =
    ("GTiff", log_to (world []) [Debug "GDAL" "Using GTiff driver"]) ∧
  DriverForRaster "out.xyz" (world []) =
    ("", log_to (world [])
           [Error CE_Failure CPLE_AppDefined
                  ("Cannot guess driver for " +:+ "out.xyz")]).
Proof.
  split.
  - apply (C1_empty_match_default_or_error SpecPath.GetExtension String.words
             "noext" (world [])); reflexivity.
  - apply (C1_empty_match_default_or_error SpecPath.GetExtension String.words
             "out.xyz" (world [])); [reflexivity|discriminate].
Defined.

(** With the extension function of the specification, every filename with
    one of the four endings has the extension "zip", so the aliases apply to
    all of them. *)
Lemma spec_filename_no_sep (t : string) :
  existsb SpecPath.is_sep (String.list_ascii_of_string t) = false →
  SpecPath.filename t = t.
Proof.
  induction t as [|c t IH]; simpl; [done|].
  intros [Hc Ht]%orb_false_iff. by rewrite Ht, Hc.
Qed.

Lemma spec_filename_app (p t : string) :
  existsb SpecPath.is_sep (String.list_ascii_of_string t) = false →
  ∃ q, SpecPath.filename (p +:+ t) = q +:+ t.
Proof.
  intros Ht. induction p as [|c p [q IH]].
  - exists "". by apply spec_filename_no_sep.
  - rewrite string_app_cons. cbn [SpecPath.filename].
    destruct (existsb SpecPath.is_sep (String.list_ascii_of_string (p +:+ t)));
      [by exists q|].
    destruct (SpecPath.is_sep c); [by exists p|]. by exists (String c p).
Qed.

Lemma spec_after_last_dot_app (q t e : string) :
  SpecPath.after_last_dot t = Some e →
  SpecPath.after_last_dot (q +:+ t) = Some e.
Proof.
  intros Ht. induction q as [|c q IH]; [done|].
  rewrite string_app_cons. cbn [SpecPath.after_last_dot]. by rewrite IH.
Qed.

Lemma spec_extension_of_suffix (p t e : string) :
  existsb SpecPath.is_sep (String.list_ascii_of_string t) = false →
  SpecPath.after_last_dot t = Some e →
  SpecPath.GetExtension (p +:+ t) = CPLStr.map CPLStr.tolower e.
Proof.
  intros Hsep Hdot. unfold SpecPath.GetExtension.
  destruct (spec_filename_app p t Hsep) as [q ->].
  by rewrite (spec_after_last_dot_app q t e Hdot).
Qed.

Lemma spec_token_of_aliases (p : string) :
  Token (p +:+ ".shp.zip") = "shp.zip" ∧
  Token (p +:+ ".SHP.ZIP") = "shp.zip" ∧
  Token (p +:+ ".gpkg.zip") = "gpkg.zip" ∧
  Token (p +:+ ".GPKG.ZIP") = "gpkg.zip".
Proof.
  split_and!.
  - apply OutputExtension_shp.
    + by rewrite (spec_extension_of_suffix p ".shp.zip" "zip").
    + left. apply endsWith_spec. eauto.
  - apply OutputExtension_shp.
    + by rewrite (spec_extension_of_suffix p ".SHP.ZIP" "ZIP").
    + right. apply endsWith_spec. eauto.
  - apply OutputExtension_gpkg.
    + by rewrite (spec_extension_of_suffix p ".gpkg.zip" "zip").
    + left. apply endsWith_spec. eauto.
  - apply OutputExtension_gpkg.
    + by rewrite (spec_extension_of_suffix p ".GPKG.ZIP" "ZIP").
    + right. apply endsWith_spec. eauto.
Qed.

Lemma C2_witness :
  Token "out.shp.zip" = "shp.zip" ∧ Token "OUT.GPKG.ZIP" = "gpkg.zip".
Proof.
  split.
  - apply (C2_zip_aliases_two_spellings SpecPath.GetExtension "out.shp.zip");
      [reflexivity|]. exists "out". by left.
  - apply (C2_zip_aliases_two_spellings SpecPath.GetExtension "OUT.GPKG.ZIP");
      [reflexivity|]. exists "OUT". by right.
Defined.

(** C2 fails for a mixed-case spelling: "out.SHP.Zip" ends in ".shp.zip" up
    to letter case, and its token is "zip"; whatever extension function is
    used, the token of that filename is just the extension it gives. *)
Lemma C2_counterexample :
  EQUAL ".SHP.Zip" ".shp.zip" = true ∧
  endsWith "out.SHP.Zip" ".SHP.Zip" = true ∧
  Token "out.SHP.Zip" = "zip" ∧
  (∀ CPLGetExtension : string → string,
     OutputExtension CPLGetExtension "out.SHP.Zip" =
     CPLGetExtension "out.SHP.Zip").
Proof.
  split_and!; [by vm_compute..|].
  intros CPLGetExtension. by apply OutputExtension_other.
Qed.

Lemma C3_witness :
  (DriversFor "out.nc" GDAL_OF_RASTER (world [GMT; NETCDF])).1 =
    ["NETCDF"; "GMT"] ∧
  (DriversFor "out.nc" GDAL_OF_RASTER (world [NETCDF; GMT])).1 =
    (Matching "out.nc" (Token "out.nc") GDAL_OF_RASTER
              (world [NETCDF; GMT])).1.
Proof.
  split.
  - apply (C3_override_up_to_case SpecPath.GetExtension String.words
             "out.nc" GDAL_OF_RASTER (world [GMT; NETCDF])).
    split; [reflexivity|]. exists "GMT", "NETCDF". by vm_compute.
  - apply (C3_override_up_to_case SpecPath.GetExtension String.words
             "out.nc" GDAL_OF_RASTER (world [NETCDF; GMT])).
    intros (_ & a & b & [= <- <-] & Ha & _). discriminate Ha.
Defined.

(** C3 fails for matches that are not exactly "GMT", "NETCDF": the driver
    registered as "netCDF" is swapped too, and renamed. *)
Lemma C3_counterexample :
  Token "out.nc" = "nc" ∧
  (Matching "out.nc" (Token "out.nc") GDAL_OF_RASTER
            (world [GMT; netCDF])).1 = ["GMT"; "netCDF"] ∧
  (DriversFor "out.nc" GDAL_OF_RASTER (world [GMT; netCDF])).1 =
    ["NETCDF"; "GMT"].
Proof. by vm_compute. Qed.

Lemma raster_requested : RasterRequested GDAL_OF_RASTER.
Proof. by vm_compute. Qed.

Lemma raster_driver_capable name exts prefix :
  capable GDAL_OF_RASTER (raster_driver name exts prefix).
Proof.
  left. split; [left; by eexists|]. left. split; [apply raster_requested|].
  by eexists.
Qed.

(** A driver declaring "tif" matches "OUT.TIF". *)
Lemma C4_witness :
  "GTiff" ∈ (DriversFor "OUT.TIF" GDAL_OF_RASTER (world [GTiff])).1.
Proof.
  apply (C4_included_iff_capable_and_matching SpecPath.GetExtension
           String.words "OUT.TIF" GDAL_OF_RASTER (world [GTiff]) GTiff).
  - apply NoDup_singleton.
  - apply list_elem_of_here.
  - intros [Hnc _]. discriminate Hnc.
  - split; [apply raster_driver_capable|]. left. split; [discriminate|].
    exists "tif". split; [apply list_elem_of_here|reflexivity].
Defined.

(** C4 fails when the swap renames a match: the driver registered as
    "netCDF" meets (a) and (b) for "out.nc", and the returned list does not
    hold its short name. *)
Lemma C4_counterexample :
  NoDup (ShortName <$> [GMT; netCDF]) ∧
  netCDF ∈ [GMT; netCDF] ∧
  capable GDAL_OF_RASTER netCDF ∧
  handles_extension String.words (Token "out.nc") netCDF ∧
  (DriversFor "out.nc" GDAL_OF_RASTER (world [GMT; netCDF])).1 =
    ["NETCDF"; "GMT"] ∧
  ShortName netCDF ∉ ["NETCDF"; "GMT"].
Proof.
  split_and!.
  - apply (bool_decide_unpack _). by vm_compute.
  - apply list_elem_of_further, list_elem_of_here.
  - apply raster_driver_capable.
  - split; [discriminate|]. exists "nc".
    split; [apply list_elem_of_here|reflexivity].
  - by vm_compute.
  - intros [[=]|[=]%list_elem_of_singleton]%elem_of_cons.
Qed.

Lemma C5_witness :
  ((DriverForRaster "out.tif" (world [GTiff; COG])).1 = "GTiff" ∧
   warnings (said (DriverForRaster "out.tif") (world [GTiff; COG])) = []) ∧
  ((DriverForRaster "out.tif" (world [COG; GTiff])).1 = "COG" ∧
   warnings (said (DriverForRaster "out.tif") (world [COG; GTiff])) =
     [Error CE_Warning CPLE_AppDefined
            ("Several drivers matching " +:+ SpecPath.GetExtension "out.tif"
             +:+ " extension. Using " +:+ "COG")] ∧
   failures (said (DriverForRaster "out.tif") (world [COG; GTiff])) = []) ∧
  debugs (said (DriverForRaster "out.tif") (world [COG; GTiff])) =
    [Debug "GDAL"
           ("Using " +:+ (DriverForRaster "out.tif" (world [COG; GTiff])).1
            +:+ " driver")].
Proof.
  destruct (C5_several_candidates SpecPath.GetExtension String.words
              "out.tif" (world [GTiff; COG])) as [Hpair _].
  destruct (C5_several_candidates SpecPath.GetExtension String.words
              "out.tif" (world [COG; GTiff])) as [Hother Hdebug].
  split; [|split].
  - apply (Hpair "GTiff" "COG" []); [reflexivity|by split].
  - apply (Hother "COG" "GTiff" []); [reflexivity|]. by intros [[=] _].
  - apply Hdebug. by intros [[=] _].
Defined.

Lemma C6_witness :
  "PostGISRaster" ∈
    (DriversFor "pg:dbname=gis" GDAL_OF_RASTER (world [GTiff; PostGISRaster])).1.
Proof.
  apply (C6_prefix_match_included SpecPath.GetExtension String.words
           "pg:dbname=gis" GDAL_OF_RASTER (world [GTiff; PostGISRaster])
           PostGISRaster).
  - apply list_elem_of_further, list_elem_of_here.
  - apply raster_driver_capable.
  - by exists "PG:".
  - intros [Hnc _]. discriminate Hnc.
Defined.

(** C6 fails when the swap renames a match: the driver registered as
    "netCDF" is matched by its prefix only, and the returned list does not
    hold its short name. *)
Lemma C6_counterexample :
  netCDF_by_prefix ∈ [GMT; netCDF_by_prefix] ∧
  capable GDAL_OF_RASTER netCDF_by_prefix ∧
  ExtensionSet String.words netCDF_by_prefix = [] ∧
  has_prefix_of "NETCDF:out.nc" netCDF_by_prefix ∧
  (DriversFor "NETCDF:out.nc" GDAL_OF_RASTER
              (world [GMT; netCDF_by_prefix])).1 = ["NETCDF"; "GMT"] ∧
  ShortName netCDF_by_prefix ∉ ["NETCDF"; "GMT"].
Proof.
  split_and!.
  - apply list_elem_of_further, list_elem_of_here.
  - apply raster_driver_capable.
  - reflexivity.
  - by exists "NETCDF:".
  - by vm_compute.
  - intros [[=]|[=]%list_elem_of_singleton]%elem_of_cons.
Qed.

Lemma C7_witness :
  (DriversFor "out.tif" GDAL_OF_RASTER (world [GTiff; DriverA; COG])).1
    `sublist_of` ["GTiff"; "DriverA"; "COG"] ∧
  NoDup (DriversFor "out.tif" GDAL_OF_RASTER (world [GTiff; DriverA; COG])).1.
Proof.
  split.
  - apply (C7_order_unless_swapped SpecPath.GetExtension String.words
             "out.tif" GDAL_OF_RASTER (world [GTiff; DriverA; COG])).
    intros [Hnc _]. discriminate Hnc.
  - apply (C7_order_unless_swapped SpecPath.GetExtension String.words
             "out.tif" GDAL_OF_RASTER (world [GTiff; DriverA; COG])).
    apply (bool_decide_unpack _). by vm_compute.
Defined.

(** C7 fails when the swap applies: "GMT" is registered before "NETCDF",
    and the returned list has them the other way round. *)
Lemma C7_counterexample :
  ShortName <$> [GMT; NETCDF] = ["GMT"; "NETCDF"] ∧
  (DriversFor "out.nc" GDAL_OF_RASTER (world [GMT; NETCDF])).1 =
    ["NETCDF"; "GMT"] ∧
  ¬ (["NETCDF"; "GMT"] `sublist_of` ["GMT"; "NETCDF"]).
Proof.
  split_and!; [done|by vm_compute|].
  intros H. apply sublist_cons_l in H as (k1 & k2 & Hk & Hgmt).
  destruct k1 as [|? [|? [|? ?]]]; simplify_eq/=.
  by apply sublist_nil_r in Hgmt.
Qed.

Lemma C8_witness :
  (DriverForRaster "out.xyz" (DriverForRaster "out.xyz" (world [GTiff])).2).1 =
    (DriverForRaster "out.xyz" (world [GTiff])).1 ∧
  said (DriverForRaster "out.xyz")
       (DriverForRaster "out.xyz" (world [GTiff])).2 =
    said (DriverForRaster "out.xyz") (world [GTiff]) ∧
  drivers (DriverForRaster "out.xyz"
             (DriverForRaster "out.xyz" (world [GTiff])).2).2 = [GTiff].
Proof.
  apply (C8_deterministic_and_registry_preserving SpecPath.GetExtension
           String.words "out.xyz" GDAL_OF_RASTER
           (world [GTiff]) (world [GTiff]) eq_refl).
Defined.

(** C8 fails for [GetOutputDriverForRaster]: also a successful call changes
    the state of the error facility. *)
Lemma C8_counterexample :
  emitted (world [GTiff]) = [] ∧
  (DriverForRaster "out.tif" (world [GTiff])).1 = "GTiff" ∧
  emitted (DriverForRaster "out.tif" (world [GTiff])).2 =
    [Debug "GDAL" "Using GTiff driver"] ∧
  (DriverForRaster "out.tif" (world [GTiff])).2 ≠ world [GTiff].
Proof. split_and!; [by vm_compute..|]. by intros [=]. Qed.

Lemma C9_witness :
  warnings (said (DriverForRaster "out.tif") (world [gtiff; cog])) =
    [Error CE_Warning CPLE_AppDefined
           ("Several drivers matching " +:+ SpecPath.GetExtension "out.tif"
            +:+ " extension. Using " +:+ "gtiff")].
Proof.
  apply (C9_GTiff_COG_case_sensitive SpecPath.GetExtension String.words
           "out.tif" (world [gtiff; cog]) "gtiff" "cog" []);
    [reflexivity|reflexivity|reflexivity|]. by intros [[=] _].
Defined.

Lemma C10_witness :
  (DriverForRaster "out.xyz" (world [GTiff])).1 = "" ∧
  debugs (said (DriverForRaster "out.xyz") (world [GTiff])) = [].
Proof.
  apply (C10_failure_returns_empty_no_debug SpecPath.GetExtension String.words
           "out.xyz" (world [GTiff])).
  split; [reflexivity|discriminate].
Defined.

(* ------------------------------------------------------------------ *)
(** ** [EarlySetConfigOptions] *)

Lemma at_app_r (pre suf : list string) (j : nat) :
  at_ (pre ++ suf) (length pre + j) = at_ suf j.
Proof.
  unfold at_. rewrite lookup_app_r by lia.
  by replace (length pre + j - length pre)%nat with j by lia.
Qed.

(** With enough fuel the loop at index [length pre] adds to the journal what
    the scan of the remaining arguments finds. *)
Lemma EarlySetConfigOptions_loop_run fuel pre suf journal :
  (length suf ≤ fuel)%nat →
  EarlySetConfigOptions_loop fuel (pre ++ suf) (length pre) journal =
  journal ++ early_options suf.
Proof.
  revert pre suf journal.
  induction fuel as [|fuel IH]; intros pre suf journal Hfuel.
  - destruct suf; [|simpl in Hfuel; lia]. simpl. by rewrite app_nil_r.
  - cbn [EarlySetConfigOptions_loop]. rewrite length_app.
    destruct suf as [|a rest].
    { simpl. rewrite Nat.add_0_r, Nat.ltb_irrefl. by rewrite app_nil_r. }
    assert ((length pre <? length pre + length (a :: rest))%nat = true) as ->
      by (apply Nat.ltb_lt; simpl; lia).
    replace (at_ (pre ++ a :: rest) (length pre)) with a
      by (rewrite <- (Nat.add_0_r (length pre)) at 1; by rewrite at_app_r).
    rewrite !at_app_r.
    destruct rest as [|k [|v rest']].
    + assert ((length pre + 2 <? length pre + length [a])%nat = false) as ->
        by (apply Nat.ltb_ge; simpl; lia).
      assert ((length pre + 1 <? length pre + length [a])%nat = false) as ->
        by (apply Nat.ltb_ge; simpl; lia).
      rewrite !andb_false_r.
      replace (pre ++ [a]) with ((pre ++ [a]) ++ []) by apply app_nil_r.
      replace (length pre + 1)%nat with (length (pre ++ [a]))
        by (rewrite length_app; simpl; lia).
      rewrite IH by (simpl; lia). done.
    + assert ((length pre + 2 <? length pre + length [a; k])%nat = false) as ->
        by (apply Nat.ltb_ge; simpl; lia).
      assert ((length pre + 1 <? length pre + length [a; k])%nat = true) as ->
        by (apply Nat.ltb_lt; simpl; lia).
      rewrite andb_false_r, andb_true_r. cbn [early_options].
      destruct (EQUAL a "--config") eqn:Hconfig.
      * assert (EQUAL a "--debug" = false) as ->.
        { destruct (EQUAL a "--debug") eqn:Hdebug; [|done].
          rewrite EQUAL_sym in Hconfig.
          by pose proof (EQUAL_trans _ _ _ Hconfig Hdebug). }
        replace (pre ++ [a; k]) with ((pre ++ [a]) ++ [k])
          by (by rewrite <- app_assoc).
        replace (length pre + 1)%nat with (length (pre ++ [a]))
          by (rewrite length_app; simpl; lia).
        rewrite IH by (simpl in *; lia). done.
      * destruct (EQUAL a "--debug").
        -- replace (pre ++ [a; k]) with ((pre ++ [a; k]) ++ [])
             by apply app_nil_r.
           replace (length pre + 1 + 1)%nat with (length (pre ++ [a; k]))
             by (rewrite length_app; simpl; lia).
           rewrite IH by (simpl; lia). unfold CPLSetConfigOption. simpl.
           by rewrite app_nil_r.
        -- replace (pre ++ [a; k]) with ((pre ++ [a]) ++ [k])
             by (by rewrite <- app_assoc).
           replace (length pre + 1)%nat with (length (pre ++ [a]))
             by (rewrite length_app; simpl; lia).
           rewrite IH by (simpl in *; lia). done.
    + assert ((length pre + 2 <? length pre + length (a :: k :: v :: rest'))%nat
              = true) as -> by (apply Nat.ltb_lt; simpl; lia).
      assert ((length pre + 1 <? length pre + length (a :: k :: v :: rest'))%nat
              = true) as -> by (apply Nat.ltb_lt; simpl; lia).
      rewrite !andb_true_r. cbn [early_options].
      change (at_ (a :: k :: v :: rest') 1) with k.
      change (at_ (a :: k :: v :: rest') 2) with v.
      destruct (EQUAL a "--config").
      * replace (pre ++ a :: k :: v :: rest')
          with ((pre ++ [a; k; v]) ++ rest') by (by rewrite <- app_assoc).
        replace (length pre + 2 + 1)%nat with (length (pre ++ [a; k; v]))
          by (rewrite length_app; simpl; lia).
        rewrite IH by (simpl in *; lia). unfold CPLSetConfigOption.
        by rewrite <- app_assoc.
      * destruct (EQUAL a "--debug").
        -- replace (pre ++ a :: k :: v :: rest')
             with ((pre ++ [a; k]) ++ v :: rest') by (by rewrite <- app_assoc).
           replace (length pre + 1 + 1)%nat with (length (pre ++ [a; k]))
             by (rewrite length_app; simpl; lia).
           rewrite IH by (simpl in *; lia). unfold CPLSetConfigOption.
           by rewrite <- app_assoc.
        -- replace (pre ++ a :: k :: v :: rest')
             with ((pre ++ [a]) ++ k :: v :: rest') by (by rewrite <- app_assoc).
           replace (length pre + 1)%nat with (length (pre ++ [a]))
             by (rewrite length_app; simpl; lia).
           rewrite IH by (simpl in *; lia). done.
Qed.

(** The call adds what the scan of [argv[1]], [argv[2]], ... finds. *)
Lemma EarlySetConfigOptions_run argv journal :
  EarlySetConfigOptions argv journal = journal ++ early_options (drop 1 argv).
Proof.
  unfold EarlySetConfigOptions. destruct argv as [|prog args].
  - simpl. by rewrite app_nil_r.
  - change (prog :: args) with ([prog] ++ args).
    change 1%nat with (length [prog]) at 2.
    rewrite EarlySetConfigOptions_loop_run by (simpl; lia). done.
Qed.



Lemma early_options_none (args : list string) :
  (∀ a, a ∈ args → EQUAL a "--config" = false ∧ EQUAL a "--debug" = false) →
  early_options args = [].
Proof.
  induction args as [|a rest IH]; intros Hnone; [done|].
  destruct (Hnone a) as [Hc Hd]; [apply list_elem_of_here|].
  assert (early_options rest = []) as Hrest.
  { apply IH. intros b Hb. apply Hnone. by apply list_elem_of_further. }
  cbn [early_options]. rewrite Hc, Hd.
  destruct rest as [|k [|v rest']]; done.
Qed.

(** X2: the program name is never read as an option, and when no later
    argument is "--config" or "--debug" (in any letter case) nothing is set. *)
Theorem X2_no_option_word_sets_nothing argv journal :
  (∀ a, a ∈ drop 1 argv →
        EQUAL a "--config" = false ∧ EQUAL a "--debug" = false) →
  EarlySetConfigOptions argv journal = journal.
Proof.
  intros Hnone. rewrite EarlySetConfigOptions_run.
  rewrite early_options_none by done. apply app_nil_r.
Qed.

(** X3: an option word without all its operands sets nothing.  With at most
    one argument behind the program name nothing is ever set, and "--config"
    followed by a single argument sets nothing either. *)
Theorem X3_missing_operands_set_nothing argv journal :
  ((length argv ≤ 2)%nat → EarlySetConfigOptions argv journal = journal) ∧
  (∀ prog opt k,
     argv = [prog; opt; k] → EQUAL opt "--config" = true →
     EarlySetConfigOptions argv journal = journal).
Proof.
  split.
  - intros Hlen. rewrite EarlySetConfigOptions_run.
    destruct argv as [|prog [|a [|? ?]]]; simpl in Hlen; try lia;
      simpl; apply app_nil_r.
  - intros prog opt k -> Hopt. rewrite EarlySetConfigOptions_run.
    cbn [drop early_options]. rewrite Hopt. apply app_nil_r.
Qed.

Lemma early_options_origin (args : list string) (key value : string) :
  (key, value) ∈ early_options args →
  ∃ i opt,
    args !! i = Some opt ∧
    ((EQUAL opt "--config" = true ∧ args !! (i + 1)%nat = Some key ∧
      args !! (i + 2)%nat = Some value) ∨
     (EQUAL opt "--debug" = true ∧ key = "CPL_DEBUG" ∧
      args !! (i + 1)%nat = Some value)).
Proof.
  remember (length args) as n eqn:Hn. revert args Hn.
  induction n as [n IH] using lt_wf_ind. intros args -> Hin.
  assert (∀ skipped rest,
            args = skipped ++ rest → skipped ≠ [] →
            (key, value) ∈ early_options rest →
            ∃ i opt,
              args !! i = Some opt ∧
              ((EQUAL opt "--config" = true ∧
                args !! (i + 1)%nat = Some key ∧
                args !! (i + 2)%nat = Some value) ∨
               (EQUAL opt "--debug" = true ∧ key = "CPL_DEBUG" ∧
                args !! (i + 1)%nat = Some value))) as Hlater.
  { intros skipped rest -> Hskipped Hrest.
    destruct (IH (length rest)) with (args := rest) as (i & opt & Hi & Hcase);
      [|done|done|].
    { rewrite length_app. destruct skipped; [done|simpl; lia]. }
    exists (length skipped + i)%nat, opt.
    rewrite <- !Nat.add_assoc, !lookup_app_r by lia.
    replace (length skipped + i - length skipped)%nat with i by lia.
    replace (length skipped + (i + 1) - length skipped)%nat
      with (i + 1)%nat by lia.
    replace (length skipped + (i + 2) - length skipped)%nat
      with (i + 2)%nat by lia.
    done. }
  destruct args as [|a [|k [|v rest']]]; cbn [early_options] in Hin.
  - by apply not_elem_of_nil in Hin.
  - by apply not_elem_of_nil in Hin.
  - destruct (EQUAL a "--config") eqn:Hc.
    + by apply (Hlater [a] [k]).
    + destruct (EQUAL a "--debug") eqn:Hd.
      * apply list_elem_of_singleton in Hin as [= -> ->].
        exists 0%nat, a. split; [done|]. right. done.
      * by apply (Hlater [a] [k]).
  - destruct (EQUAL a "--config") eqn:Hc.
    + apply elem_of_cons in Hin as [[= -> ->]|Hin].
      * exists 0%nat, a. split; [done|]. left. done.
      * by apply (Hlater [a; k; v] rest').
    + destruct (EQUAL a "--debug") eqn:Hd.
      * apply elem_of_cons in Hin as [[= -> ->]|Hin].
        -- exists 0%nat, a. split; [done|]. right. done.
        -- by apply (Hlater [a; k] (v :: rest')).
      * by apply (Hlater [a] (k :: v :: rest')).
Qed.

(** X4: the journal is only added to, and every pair added comes from the
    arguments: either key and value stand right behind a "--config" at
    [argv[i]], [i ≥ 1], or the key is CPL_DEBUG and the value stands right
    behind a "--debug". *)
Theorem X4_every_option_set_comes_from_argv argv journal :
  ∃ added,
    EarlySetConfigOptions argv journal = journal ++ added ∧
    ∀ key value,
      (key, value) ∈ added →
      ∃ i opt,
        (1 ≤ i)%nat ∧ argv !! i = Some opt ∧
        ((EQUAL opt "--config" = true ∧ argv !! (i + 1)%nat = Some key ∧
          argv !! (i + 2)%nat = Some value) ∨
         (EQUAL opt "--debug" = true ∧ key = "CPL_DEBUG" ∧
          argv !! (i + 1)%nat = Some value)).
Proof.
  exists (early_options (drop 1 argv)).
  split; [apply EarlySetConfigOptions_run|].
  intros key value (i & opt & Hi & Hcase)%early_options_origin.
  exists (1 + i)%nat, opt. rewrite lookup_drop in Hi.
  setoid_rewrite lookup_drop in Hcase.
  rewrite <- !Nat.add_assoc. split; [lia|]. done.
Qed.

Lemma early_options_length (args : list string) :
  (2 * length (early_options args) ≤ length args)%nat.
Proof.
  remember (length args) as n eqn:Hn. revert args Hn.
  induction n as [n IH] using lt_wf_ind. intros args ->.
  destruct args as [|a [|k [|v rest']]]; cbn [early_options]; simpl; try lia.
  - destruct (EQUAL a "--config"); [simpl; lia|].
    destruct (EQUAL a "--debug"); simpl; lia.
  - pose proof (IH (length rest') ltac:(simpl; lia) rest' eq_refl).
    pose proof (IH (length (v :: rest')) ltac:(simpl; lia) (v :: rest') eq_refl).
    pose proof (IH (length (k :: v :: rest')) ltac:(simpl; lia)
                  (k :: v :: rest') eq_refl).
    destruct (EQUAL a "--config"); [simpl in *; lia|].
    destruct (EQUAL a "--debug"); simpl in *; lia.
Qed.

(** X5: a call sets at most one option for every two arguments behind the
    program name. *)
Theorem X5_at_most_half_the_arguments argv journal :
  (2 * (length (EarlySetConfigOptions argv journal) - length journal)
   ≤ length argv - 1)%nat.
Proof.
  rewrite EarlySetConfigOptions_run, length_app.
  pose proof (early_options_length (drop 1 argv)) as Hlen.
  rewrite length_drop in Hlen. lia.
Qed.


Lemma X2_witness :
  EarlySetConfigOptions ["--config"; "in.tif"; "-of"; "GTiff"; "out.tif"]
                        [("GDAL_CACHEMAX", "64")] =
  [("GDAL_CACHEMAX", "64")].
Proof.
  apply X2_no_option_word_sets_nothing. intros a Ha.
  repeat (apply elem_of_cons in Ha as [->|Ha]; [by split|]).
  by apply not_elem_of_nil in Ha.
Defined.

Lemma X3_witness :
  EarlySetConfigOptions ["ogr2ogr"; "--debug"] [] = [] ∧
  EarlySetConfigOptions ["ogr2ogr"; "--config"; "--debug"] [] = [].
Proof.
  split.
  - apply (X3_missing_operands_set_nothing ["ogr2ogr"; "--debug"] []).
    simpl. lia.
  - by apply (proj2 (X3_missing_operands_set_nothing
                       ["ogr2ogr"; "--config"; "--debug"] [])
                "ogr2ogr" "--config" "--debug").
Defined.

(* ------------------------------------------------------------------ *)
(** ** [GDALRemoveBOM] *)

Lemma strlen_c_str (buf : list Z) :
  0 ∈ buf → strlen buf = Some (length (c_str buf)).
Proof.
  induction buf as [|b buf IH]; intros Hz; [by apply not_elem_of_nil in Hz|].
  simpl. destruct (Z.eqb_spec b 0) as [->|Hb]; [done|].
  apply elem_of_cons in Hz as [Hz|Hz]; [congruence|].
  by rewrite IH.
Qed.

Lemma c_str_length (buf : list Z) :
  0 ∈ buf → (length (c_str buf) < length buf)%nat.
Proof.
  induction buf as [|b buf IH]; intros Hz; [by apply not_elem_of_nil in Hz|].
  simpl. destruct (Z.eqb_spec b 0) as [->|Hb]; [simpl; lia|].
  apply elem_of_cons in Hz as [Hz|Hz]; [congruence|].
  simpl. specialize (IH Hz). lia.
Qed.

(** The string and its terminator, moved to the front of anything, still
    read as the same string. *)
Lemma c_str_take_app (buf tail : list Z) :
  0 ∈ buf → c_str (take (length (c_str buf) + 1) buf ++ tail) = c_str buf.
Proof.
  induction buf as [|b buf IH]; intros Hz; [by apply not_elem_of_nil in Hz|].
  simpl. destruct (Z.eqb_spec b 0) as [->|Hb]; [done|].
  apply elem_of_cons in Hz as [Hz|Hz]; [congruence|].
  simpl. destruct (Z.eqb_spec b 0); [done|]. by rewrite IH.
Qed.

Lemma c_str_cons_inv (buf : list Z) (b : Z) (s : list Z) :
  c_str buf = b :: s → ∃ buf', buf = b :: buf' ∧ c_str buf' = s.
Proof.
  destruct buf as [|b' buf']; simpl; [done|].
  destruct (b' =? 0); [done|]. intros [= -> <-]. eauto.
Qed.

(** A string that starts with the three bytes sits in a buffer that starts
    with them. *)
Lemma c_str_BOM (buf rest : list Z) :
  c_str buf = 0xEF :: 0xBB :: 0xBF :: rest →
  ∃ buf3, buf = 0xEF :: 0xBB :: 0xBF :: buf3 ∧ c_str buf3 = rest.
Proof.
  intros (buf1 & -> & (buf2 & -> & (buf3 & -> & H3)%c_str_cons_inv)
            %c_str_cons_inv)%c_str_cons_inv.
  eauto.
Qed.

(** X6: on a zero-terminated buffer whose string starts with the bytes EF
    BB BF the call succeeds without reading outside the buffer; afterwards
    the buffer has its old size, the string it holds is the old one without
    those three bytes (a second mark right behind stays), and the bytes
    behind the new terminator are the old ones. *)
Theorem X6_BOM_removed_once (buf rest : list Z) :
  0 ∈ buf → c_str buf = 0xEF :: 0xBB :: 0xBF :: rest →
  ∃ buf',
    GDALRemoveBOM buf = Some buf' ∧
    c_str buf' = rest ∧
    length buf' = length buf ∧
    drop (length rest + 1) buf' = drop (length rest + 1) buf.
Proof.
  intros Hz (buf3 & -> & <-)%c_str_BOM.
  assert (0 ∈ buf3) as Hz3.
  { repeat (apply elem_of_cons in Hz as [Hz|Hz]; [done|]). done. }
  pose proof (c_str_length buf3 Hz3) as Hlen.
  unfold GDALRemoveBOM. cbn [lookup list_lookup mbind option_bind drop].
  cbn [Z.eqb Pos.eqb]. rewrite drop_0, (strlen_c_str buf3 Hz3). cbn [mbind option_bind].
  unfold memmove_to_front. cbn [drop length].
  destruct (Nat.leb_spec (3 + (length (c_str buf3) + 1))
              (S (S (S (length buf3))))) as [_|?]; [|lia].
  eexists. split; [done|]. split_and!.
  - by apply c_str_take_app.
  - rewrite length_app, length_take, !length_drop. simpl. lia.
  - rewrite drop_app_length'; [done|]. rewrite length_take, length_drop. lia.
Qed.

(** X7: on a zero-terminated buffer whose string does not start with the
    bytes EF BB BF, also one shorter than three bytes, the call succeeds
    without reading outside the buffer and leaves the buffer as it was. *)
Theorem X7_no_BOM_unchanged (buf : list Z) :
  0 ∈ buf → (∀ rest, c_str buf ≠ 0xEF :: 0xBB :: 0xBF :: rest) →
  GDALRemoveBOM buf = Some buf.
Proof.
  intros Hz Hno. unfold GDALRemoveBOM.
  destruct buf as [|b0 buf1]; [by apply not_elem_of_nil in Hz|].
  cbn [lookup list_lookup mbind option_bind].
  destruct (Z.eqb_spec b0 0xEF) as [->|?]; [|done].
  apply elem_of_cons in Hz as [Hz|Hz]; [done|].
  destruct buf1 as [|b1 buf2]; [by apply not_elem_of_nil in Hz|].
  cbn [lookup list_lookup mbind option_bind].
  destruct (Z.eqb_spec b1 0xBB) as [->|?]; [|done].
  apply elem_of_cons in Hz as [Hz|Hz]; [done|].
  destruct buf2 as [|b2 buf3]; [by apply not_elem_of_nil in Hz|].
  cbn [lookup list_lookup mbind option_bind].
  destruct (Z.eqb_spec b2 0xBF) as [->|?]; [|done].
  by destruct (Hno (c_str buf3)).
Qed.

Lemma X6_witness :
  GDALRemoveBOM [0xEF; 0xBB; 0xBF; 0xEF; 0xBB; 0xBF; 65; 0; 7] =
  Some [0xEF; 0xBB; 0xBF; 65; 0; 0xBF; 65; 0; 7].
Proof.
  destruct (X6_BOM_removed_once [0xEF; 0xBB; 0xBF; 0xEF; 0xBB; 0xBF; 65; 0; 7]
              [0xEF; 0xBB; 0xBF; 65])
    as (buf' & Hcall & _).
  - apply (bool_decide_unpack _). by vm_compute.
  - reflexivity.
  - rewrite Hcall. f_equal. injection Hcall as <-. reflexivity.
Defined.

Lemma X7_witness :
  GDALRemoveBOM [0xEF; 0xBB; 0] = Some [0xEF; 0xBB; 0] ∧
  GDALRemoveBOM [0] = Some [0].
Proof.
  split; apply X7_no_BOM_unchanged;
    solve [ apply (bool_decide_unpack _); by vm_compute
          | intros rest; discriminate ].
Defined.

(* ------------------------------------------------------------------ *)
(** ** [GDALRemoveSQLComments] *)

Lemma string_strong_ind (P : string → Prop) :
  (∀ s, (∀ t, (String.length t < String.length s)%nat → P t) → P s) →
  ∀ s, P s.
Proof.
  intros Hstep s. remember (String.length s) as n eqn:Hn. revert s Hn.
  induction n as [n IH] using lt_wf_ind. intros s ->.
  apply Hstep. intros t Ht. by apply (IH (String.length t)).
Qed.

Lemma string_app_assoc (a b c : string) : (a +:+ b) +:+ c = a +:+ (b +:+ c).
Proof.
  induction a as [|x a IH]; [done|].
  rewrite !string_app_cons. by rewrite IH.
Qed.

Lemma string_app_empty_r (a : string) : a +:+ "" = a.
Proof. induction a as [|x a IH]; [done|]. rewrite string_app_cons. by rewrite IH. Qed.

Lemma substring_0_cons (n : nat) (c : ascii) (s : string) :
  String.substring 0 (S n) (String c s) = String c (String.substring 0 n s).
Proof. reflexivity. Qed.

Lemma substring_0_0 (s : string) : String.substring 0 0 s = "".
Proof. by destruct s. Qed.

Lemma substring_0_app (p r : string) :
  String.substring 0 (String.length p) (p +:+ r) = p.
Proof.
  induction p as [|c p IH]; [apply substring_0_0|].
  rewrite string_app_cons. simpl. by rewrite IH.
Qed.

Lemma substring_0_twice (n : nat) (s : string) :
  String.substring 0 n (String.substring 0 n s) = String.substring 0 n s.
Proof.
  revert s. induction n as [|n IH]; intros s.
  - by rewrite !substring_0_0.
  - destruct s as [|c s]; [done|]. rewrite !substring_0_cons. by rewrite IH.
Qed.

Lemma QUOTE_is_not_NUL (q : ascii) :
  Ascii.eqb q QUOTE || Ascii.eqb q DQUOTE = true → Ascii.eqb q NUL = false.
Proof.
  intros [->%Ascii.eqb_eq| ->%Ascii.eqb_eq]%orb_true_iff; reflexivity.
Qed.

Lemma QUOTE_is_not_DASH (q : ascii) :
  Ascii.eqb q QUOTE || Ascii.eqb q DQUOTE = true → Ascii.eqb DASH q = false.
Proof.
  intros [->%Ascii.eqb_eq| ->%Ascii.eqb_eq]%orb_true_iff; reflexivity.
Qed.

(** The loop never runs past the end of the line. *)
Lemma comment_start_le (chQuote : ascii) (s : string) :
  (comment_start chQuote s ≤ String.length s)%nat.
Proof.
  revert chQuote. induction s as [s IH] using string_strong_ind.
  intros chQuote. destruct s as [|c rest]; [done|].
  cbn [comment_start String.length].
  destruct (Ascii.eqb c NUL); [lia|].
  destruct (negb (Ascii.eqb chQuote NUL)).
  - destruct (Ascii.eqb c chQuote).
    + destruct (Ascii.eqb (next_char rest) chQuote).
      * destruct rest as [|c' rest']; [simpl; lia|].
        pose proof (IH rest' ltac:(simpl; lia) chQuote). simpl. lia.
      * pose proof (IH rest ltac:(simpl; lia) NUL). lia.
    + pose proof (IH rest ltac:(simpl; lia) chQuote). lia.
  - destruct (Ascii.eqb c QUOTE || Ascii.eqb c DQUOTE).
    + pose proof (IH rest ltac:(simpl; lia) c). lia.
    + destruct (Ascii.eqb c DASH && Ascii.eqb (next_char rest) DASH); [lia|].
      pose proof (IH rest ltac:(simpl; lia) NUL). lia.
Qed.

(** What the loop leaves behind is nothing or starts with two dashes. *)
Lemma comment_start_split (chQuote : ascii) (s : string) :
  no_NUL s = true →
  ∃ removed,
    s = String.substring 0 (comment_start chQuote s) s +:+ removed ∧
    (removed = "" ∨ ∃ t, removed = "--" +:+ t).
Proof.
  revert chQuote. induction s as [s IH] using string_strong_ind.
  intros chQuote Hs. destruct s as [|c rest]; [exists ""; auto|].
  cbn [no_NUL] in Hs. apply andb_true_iff in Hs as [Hc Hrest].
  apply negb_true_iff in Hc. cbn [comment_start]. rewrite Hc.
  assert (∀ q, ∃ removed,
            String c rest =
              String.substring 0 (S (comment_start q rest)) (String c rest)
              +:+ removed ∧
            (removed = "" ∨ ∃ t, removed = "--" +:+ t)) as Hone.
  { intros q.
    destruct (IH rest ltac:(simpl; lia) q Hrest) as (removed & Heq & Hrem).
    exists removed. split; [|done].
    rewrite substring_0_cons, string_app_cons. by rewrite <- Heq. }
  destruct (negb (Ascii.eqb chQuote NUL)).
  - destruct (Ascii.eqb c chQuote); [|apply Hone].
    destruct (Ascii.eqb (next_char rest) chQuote); [|apply Hone].
    destruct rest as [|c' rest']; [exists ""; auto|].
    cbn [no_NUL] in Hrest. apply andb_true_iff in Hrest as [_ Hrest'].
    destruct (IH rest' ltac:(simpl; lia) chQuote Hrest')
      as (removed & Heq & Hrem).
    exists removed. split; [|done].
    rewrite !substring_0_cons, !string_app_cons. by rewrite <- Heq.
  - destruct (Ascii.eqb c QUOTE || Ascii.eqb c DQUOTE); [apply Hone|].
    destruct (Ascii.eqb c DASH && Ascii.eqb (next_char rest) DASH) eqn:Hdash;
      [|apply Hone].
    apply andb_true_iff in Hdash as [->%Ascii.eqb_eq Hnext].
    destruct rest as [|c' rest']; [done|].
    apply Ascii.eqb_eq in Hnext. simpl in Hnext. subst c'.
    exists (String DASH (String DASH rest')). split; [done|].
    right. by exists rest'.
Qed.

(** X8: from a line only an end that starts with two dashes is ever cut
    off; a line in which two dashes never follow each other is kept whole. *)
Theorem X8_only_a_dash_dash_tail_is_removed (pszLine : string) :
  no_NUL pszLine = true →
  (∃ removed,
     pszLine = strip_line pszLine +:+ removed ∧
     (removed = "" ∨ ∃ t, removed = "--" +:+ t)) ∧
  ((∀ a b, pszLine ≠ a +:+ "--" +:+ b) → strip_line pszLine = pszLine).
Proof.
  intros Hline.
  destruct (comment_start_split NUL pszLine Hline) as (removed & Heq & Hrem).
  split; [by exists removed|].
  intros Hnone. destruct Hrem as [->|[t ->]].
  - by rewrite string_app_empty_r in Heq.
  - by destruct (Hnone (strip_line pszLine) t).
Qed.

Lemma X8_witness :
  (∃ removed,
     "SELECT 1 -- one" = strip_line "SELECT 1 -- one" +:+ removed ∧
     (removed = "" ∨ ∃ t, removed = "--" +:+ t)) ∧
  strip_line "SELECT 1 -- one" = "SELECT 1 ".
Proof.
  split; [|reflexivity].
  by apply (X8_only_a_dash_dash_tail_is_removed "SELECT 1 -- one").
Defined.

Lemma has_dash_dash_app (a b : string) : has_dash_dash (a +:+ "--" +:+ b) = true.
Proof.
  induction a as [|c a IH]; [done|].
  rewrite string_app_cons. cbn [has_dash_dash]. rewrite IH.
  apply orb_true_r.
Qed.

(** The test [has_dash_dash] decides the occurrence of two dashes. *)
Lemma no_dash_dash (s : string) :
  has_dash_dash s = false → ∀ a b, s ≠ a +:+ "--" +:+ b.
Proof. intros Hs a b ->. by rewrite has_dash_dash_app in Hs. Qed.

(** Text without quotes and without two dashes in a row, up to and
    including the character that follows it, is stepped over. *)
Lemma comment_start_plain (p rest : string) :
  no_quotes p = true → no_NUL p = true →
  (∀ a b, p +:+ String (next_char rest) "" ≠ a +:+ "--" +:+ b) →
  comment_start NUL (p +:+ rest) =
  (String.length p + comment_start NUL rest)%nat.
Proof.
  induction p as [|c p IH]; intros Hquotes Hnul Hdash; [done|].
  cbn [no_quotes no_NUL] in Hquotes, Hnul.
  apply andb_true_iff in Hquotes as [Hc Hquotes].
  apply andb_true_iff in Hnul as [Hc0 Hnul].
  apply negb_true_iff in Hc, Hc0.
  rewrite string_app_cons. cbn [comment_start String.length].
  rewrite Hc0, Hc. change (Ascii.eqb NUL NUL) with true. cbn [negb].
  destruct (Ascii.eqb c DASH && Ascii.eqb (next_char (p +:+ rest)) DASH)
    eqn:Hcut.
  - exfalso. apply andb_true_iff in Hcut as [->%Ascii.eqb_eq Hnext].
    apply Ascii.eqb_eq in Hnext.
    destruct p as [|c' p'].
    + rewrite string_app_nil in Hnext.
      apply (Hdash "" ""). rewrite Hnext. reflexivity.
    + rewrite string_app_cons in Hnext. simpl in Hnext. subst c'.
      apply (Hdash "" (p' +:+ String (next_char rest) "")). reflexivity.
  - rewrite IH; [done|done|done|].
    intros a b Heq. apply (Hdash (String c a) b).
    rewrite !string_app_cons. by rewrite Heq.
Qed.

Lemma has_dash_dash_inv (s : string) :
  has_dash_dash s = true → ∃ a b, s = a +:+ "--" +:+ b.
Proof.
  induction s as [|c rest IH]; [done|]. cbn [has_dash_dash].
  intros [[->%Ascii.eqb_eq Hnext]%andb_true_iff|Hrest]%orb_true_iff.
  - destruct rest as [|c' rest']; [done|].
    apply Ascii.eqb_eq in Hnext. simpl in Hnext. subst c'.
    by exists "", rest'.
  - destruct (IH Hrest) as (a & b & ->). by exists (String c a), b.
Qed.

(** Two dashes in a row in [p] followed by a dash are in [p] already, or
    [p] ends in a dash. *)
Lemma has_dash_dash_before_dash (p : string) :
  has_dash_dash (p +:+ "-") = true →
  has_dash_dash p = true ∨ ∃ a, p = a +:+ "-".
Proof.
  induction p as [|c p IH]; [done|].
  rewrite string_app_cons. cbn [has_dash_dash].
  intros [[->%Ascii.eqb_eq Hnext]%andb_true_iff|Hrest]%orb_true_iff.
  - destruct p as [|c' p']; [right; by exists ""|].
    rewrite string_app_cons in Hnext. simpl in Hnext. left. simpl.
    by rewrite Hnext.
  - destruct (IH Hrest) as [Hp|[a ->]].
    + left. rewrite Hp. apply orb_true_r.
    + right. by exists (String c a).
Qed.

(** X9: a line that starts with text that has no quotes, no two dashes in
    a row and no dash at its end, followed by two dashes, is cut exactly in
    front of these two dashes. *)
Theorem X9_comment_cut_at_first_dash_dash (p t : string) :
  no_quotes p = true → no_NUL p = true →
  (∀ a b, p ≠ a +:+ "--" +:+ b) →
  (∀ a, p ≠ a +:+ "-") →
  strip_line (p +:+ "--" +:+ t) = p.
Proof.
  intros Hquotes Hnul Hnone Hend.
  assert (∀ a b, p +:+ "-" ≠ a +:+ "--" +:+ b) as Hdash.
  { apply no_dash_dash.
    destruct (has_dash_dash (p +:+ "-")) eqn:Hp; [|done].
    destruct (has_dash_dash_before_dash p Hp) as [Hin|[a Ha]].
    - destruct (has_dash_dash_inv p Hin) as (a & b & Heq).
      by destruct (Hnone a b).
    - by destruct (Hend a). }
  unfold strip_line.
  rewrite (comment_start_plain p ("--" +:+ t)) by done.
  change (comment_start NUL ("--" +:+ t)) with 0%nat.
  rewrite Nat.add_0_r. apply substring_0_app.
Qed.

Lemma X9_witness :
  strip_line ("SELECT a-b FROM t " +:+ "--" +:+ " the difference") =
  "SELECT a-b FROM t ".
Proof.
  apply X9_comment_cut_at_first_dash_dash; [reflexivity|reflexivity| |].
  - by apply no_dash_dash.
  - by apply endsWith_false.
Defined.

Lemma has_dash_dash_snoc (p : string) (q : ascii) :
  Ascii.eqb q DASH = false →
  has_dash_dash (p +:+ String q "") = has_dash_dash p.
Proof.
  intros Hq. induction p as [|c p IH].
  - simpl. rewrite Hq. by rewrite andb_false_l.
  - rewrite string_app_cons. cbn [has_dash_dash]. rewrite IH.
    destruct p as [|c' p']; [|done].
    rewrite string_app_nil. simpl. rewrite Hq. by rewrite !andb_false_r.
Qed.

(** Inside a quoted text the loop runs to the closing quote, whatever
    stands in between. *)
Lemma comment_start_in_quote (q : ascii) (body post : string) :
  Ascii.eqb q NUL = false → lacks q body = true → no_NUL body = true →
  Ascii.eqb (next_char post) q = false →
  comment_start q (body +:+ String q post) =
  (String.length body + 1 + comment_start NUL post)%nat.
Proof.
  intros Hq Hbody Hnul Hpost. induction body as [|c body IH].
  - rewrite string_app_nil. cbn [comment_start String.length].
    by rewrite Hq, Ascii.eqb_refl, Hpost.
  - cbn [lacks no_NUL] in Hbody, Hnul.
    apply andb_true_iff in Hbody as [Hc Hbody].
    apply andb_true_iff in Hnul as [Hc0 Hnul].
    apply negb_true_iff in Hc, Hc0.
    rewrite string_app_cons. cbn [comment_start String.length].
    rewrite Hc0, Hq, Hc. cbn [negb]. by rewrite IH.
Qed.

(** X10: a quoted text is stepped over as a whole, so two dashes inside it
    start no comment: behind plain text, a quote, any text without that
    quote, and the closing quote, the loop goes on outside the quotes right
    behind the closing quote. *)
Theorem X10_quoted_text_is_stepped_over (pre : string) (q : ascii)
    (body post : string) :
  no_quotes pre = true → no_NUL pre = true →
  (∀ a b, pre ≠ a +:+ "--" +:+ b) →
  q = QUOTE ∨ q = DQUOTE →
  lacks q body = true → no_NUL body = true →
  next_char post ≠ q →
  comment_start NUL (pre +:+ String q (body +:+ String q post)) =
  (String.length pre + (String.length body + 2) + comment_start NUL post)%nat.
Proof.
  intros Hquotes Hnul Hdash Hq Hbody Hbody0 Hpost.
  assert (Ascii.eqb q QUOTE || Ascii.eqb q DQUOTE = true) as Hq'.
  { destruct Hq as [->| ->]; reflexivity. }
  pose proof (QUOTE_is_not_NUL q Hq') as Hq0.
  rewrite comment_start_plain; [|done|done|].
  - cbn [comment_start]. rewrite Hq0, Hq'.
    change (Ascii.eqb NUL NUL) with true. cbn [negb].
    rewrite comment_start_in_quote; [lia|done|done|done|].
    by apply Ascii.eqb_neq.
  - apply no_dash_dash. cbn [next_char]. rewrite has_dash_dash_snoc.
    + destruct (has_dash_dash pre) eqn:Hpre; [|done].
      destruct (has_dash_dash_inv pre Hpre) as (a & b & Heq).
      by destruct (Hdash a b).
    + destruct Hq as [->| ->]; reflexivity.
Qed.

Lemma X10_witness :
  strip_line ("SELECT " +:+ String QUOTE ("--" +:+ String QUOTE " FROM t -- c")) =
  "SELECT '--' FROM t ".
Proof.
  unfold strip_line.
  rewrite (X10_quoted_text_is_stepped_over "SELECT " QUOTE "--" " FROM t -- c").
  - reflexivity.
  - reflexivity.
  - reflexivity.
  - by apply no_dash_dash.
  - by left.
  - reflexivity.
  - reflexivity.
  - discriminate.
Defined.

Lemma next_char_substring (n : nat) (s : string) :
  next_char (String.substring 0 n s) = NUL ∨
  next_char (String.substring 0 n s) = next_char s.
Proof.
  destruct n as [|n]; [left; by rewrite substring_0_0|].
  destruct s as [|c s]; [by left|by right].
Qed.

(** Run again on what it kept, the loop keeps all of it. *)
Lemma comment_start_kept (chQuote : ascii) (s : string) :
  comment_start chQuote (String.substring 0 (comment_start chQuote s) s) =
  comment_start chQuote s.
Proof.
  revert chQuote. induction s as [s IH] using string_strong_ind.
  intros chQuote. destruct s as [|c rest]; [done|].
  cbn [comment_start].
  destruct (Ascii.eqb c NUL) eqn:Hc0; [done|].
  destruct (negb (Ascii.eqb chQuote NUL)) eqn:Hq.
  - destruct (Ascii.eqb c chQuote) eqn:Hc.
    + destruct (Ascii.eqb (next_char rest) chQuote) eqn:Hnext.
      * destruct rest as [|c' rest'].
        { apply Ascii.eqb_eq in Hnext. simpl in Hnext. subst chQuote.
          discriminate Hq. }
        simpl in Hnext. rewrite !substring_0_cons. cbn [comment_start next_char].
        rewrite Hc0, Hq, Hc, Hnext. by rewrite IH by (simpl; lia).
      * rewrite substring_0_cons. cbn [comment_start].
        rewrite Hc0, Hq, Hc.
        assert (Ascii.eqb (next_char (String.substring 0
                  (comment_start NUL rest) rest)) chQuote = false) as ->.
        { destruct (next_char_substring (comment_start NUL rest) rest)
            as [-> | ->]; [|done].
          apply negb_true_iff in Hq. by rewrite ascii_eqb_sym. }
        by rewrite IH by (simpl; lia).
    + rewrite substring_0_cons. cbn [comment_start].
      rewrite Hc0, Hq, Hc. by rewrite IH by (simpl; lia).
  - destruct (Ascii.eqb c QUOTE || Ascii.eqb c DQUOTE) eqn:Hquote.
    + rewrite substring_0_cons. cbn [comment_start].
      rewrite Hc0, Hq, Hquote. by rewrite IH by (simpl; lia).
    + destruct (Ascii.eqb c DASH && Ascii.eqb (next_char rest) DASH) eqn:Hcut;
        [done|].
      rewrite substring_0_cons. cbn [comment_start].
      rewrite Hc0, Hq, Hquote.
      assert (Ascii.eqb c DASH &&
              Ascii.eqb (next_char (String.substring 0
                           (comment_start NUL rest) rest)) DASH = false) as ->.
      { destruct (next_char_substring (comment_start NUL rest) rest)
          as [-> | ->]; [|done].
        by rewrite andb_false_r. }
      by rewrite IH by (simpl; lia).
Qed.

(** X11: stripping a line that has been stripped changes nothing. *)
Theorem X11_strip_line_idempotent (pszLine : string) :
  strip_line (strip_line pszLine) = strip_line pszLine.
Proof.
  unfold strip_line. rewrite comment_start_kept. apply substring_0_twice.
Qed.

Lemma append_line_strip (osSQL pszLine : string) :
  append_line osSQL pszLine = osSQL +:+ (strip_line pszLine +:+ " ").
Proof.
  unfold append_line, strip_line.
  destruct (comment_start NUL pszLine) as [|i].
  - by rewrite substring_0_0.
  - cbn [Nat.ltb Nat.leb]. apply string_app_assoc.
Qed.

Lemma fold_left_append_line (lines : list string) (osSQL : string) :
  fold_left append_line lines osSQL =
  osSQL +:+ foldr (λ pszLine rest, strip_line pszLine +:+ " " +:+ rest) "" lines.
Proof.
  revert osSQL. induction lines as [|l lines IH]; intros osSQL.
  - simpl. by rewrite string_app_empty_r.
  - cbn [fold_left foldr]. rewrite IH, append_line_strip.
    by rewrite !string_app_assoc.
Qed.

(** X12: the result is made of the kept part of every line the tokenizer
    gives, each followed by exactly one space, in order; a line that is
    only a comment leaves just its space, and no line leaves nothing. *)
Theorem X12_lines_joined_by_spaces
    (CSLTokenizeStringComplex : string → string → bool → bool → list string)
    (osInput : string) :
  GDALRemoveSQLComments CSLTokenizeStringComplex osInput =
  foldr (λ pszLine osSQL, strip_line pszLine +:+ " " +:+ osSQL) ""
        (CSLTokenizeStringComplex osInput (String "013" (String "010" ""))
                                  false false).
Proof.
  unfold GDALRemoveSQLComments. rewrite fold_left_append_line.
  apply string_app_nil.
Qed.

(* ------------------------------------------------------------------ *)
(** ** Worked scenarios of the further properties *)

Import VectorScenario.

Lemma X13_witness :
  DriverForRaster "out.foo" (world [GTiff; DriverA]) =
  ("DriverA", log_to (world [GTiff; DriverA])
                [Debug "GDAL" ("Using " +:+ "DriverA" +:+ " driver")]).
Proof. by apply X13_single_candidate_selected_silently. Defined.

Lemma X14_witness :
  DriverForRaster "out.nc" (world [GMT; netCDF]) =
  ("NETCDF",
   log_to (world [GMT; netCDF])
     [Error CE_Warning CPLE_AppDefined
            ("Several drivers matching " +:+ SpecPath.GetExtension "out.nc" +:+
             " extension. Using " +:+ "NETCDF");
      Debug "GDAL" "Using NETCDF driver"]).
Proof.
  apply X14_swap_then_select_NETCDF.
  split; [reflexivity|]. exists "GMT", "netCDF". by vm_compute.
Defined.

Lemma X15_witness :
  (DriversFor "out.tif" 8 (world [GTiff; GPKG; OpenFileGDB])).1 = [].
Proof. by apply X15_no_flag_no_driver. Defined.

Lemma X16_witness :
  (Matching "out.tif" "tif" GDAL_OF_RASTER
            (world [OpenFileGDB; GPKG; GTiff])).1 = ["GTiff"] ∧
  ∃ d, d ∈ [OpenFileGDB; GPKG; GTiff] ∧ ShortName d = "GTiff" ∧
       is_Some (DCAP_RASTER d) ∧
       (is_Some (DCAP_CREATE d) ∨ is_Some (DCAP_CREATECOPY d)).
Proof.
  split; [reflexivity|].
  apply (X16_raster_request_matches_raster_creators String.words
           "out.tif" "tif" GDAL_OF_RASTER (world [OpenFileGDB; GPKG; GTiff]));
    [reflexivity|]. apply list_elem_of_here.
Defined.

Lemma X18_witness :
  (DriversFor "PG:dbname=gis" GDAL_OF_RASTER
              (world [GTiff; PostGISRaster])).1 =
  (Matching "PG:dbname=gis" (Token "PG:dbname=gis") GDAL_OF_RASTER
            (world [GTiff; PostGISRaster])).1.
Proof.
  by apply (X18_no_extension_matches_by_prefix_only SpecPath.GetExtension
              String.words "PG:dbname=gis" GDAL_OF_RASTER
              (world [GTiff; PostGISRaster])).
Defined.

Lemma X19_witness :
  Matching "PG:Out.TIF" "TIF" GDAL_OF_RASTER (world [GTiff; PostGISRaster]) =
  Matching "pg:out.tif" "tif" GDAL_OF_RASTER (world [GTiff; PostGISRaster]).
Proof. by apply X19_matching_ignores_letter_case. Defined.

(* ------------------------------------------------------------------ *)
(** ** [GDALRemoveSQLComments]: a quote that is never closed *)

Lemma comment_start_open_quote (q : ascii) (body : string) :
  Ascii.eqb q NUL = false → lacks q body = true → no_NUL body = true →
  comment_start q body = String.length body.
Proof.
  intros Hq Hbody Hnul. induction body as [|c body IH]; [done|].
  cbn [lacks no_NUL] in Hbody, Hnul.
  apply andb_true_iff in Hbody as [Hc Hbody].
  apply andb_true_iff in Hnul as [Hc0 Hnul].
  apply negb_true_iff in Hc, Hc0.
  cbn [comment_start String.length]. rewrite Hc0, Hq, Hc. cbn [negb].
  by rewrite IH.
Qed.

(** X22: a quote that is never closed keeps the rest of the line: behind
    plain text and an opening quote, text without that quote is kept to the
    end of the line, two dashes in it or not. *)
Theorem X22_open_quote_keeps_the_rest (pre : string) (q : ascii) (body : string) :
  no_quotes pre = true → no_NUL pre = true →
  (∀ a b, pre ≠ a +:+ "--" +:+ b) →
  q = QUOTE ∨ q = DQUOTE →
  lacks q body = true → no_NUL body = true →
  strip_line (pre +:+ String q body) = pre +:+ String q body.
Proof.
  intros Hquotes Hnul Hdash Hq Hbody Hbody0.
  assert (Ascii.eqb q QUOTE || Ascii.eqb q DQUOTE = true) as Hq'.
  { destruct Hq as [->| ->]; reflexivity. }
  pose proof (QUOTE_is_not_NUL q Hq') as Hq0.
  unfold strip_line. rewrite comment_start_plain; [|done|done|].
  - cbn [comment_start]. rewrite Hq0, Hq'.
    change (Ascii.eqb NUL NUL) with true. cbn [negb].
    rewrite comment_start_open_quote by done.
    replace (String.length pre + S (String.length body))%nat
      with (String.length (pre +:+ String q body))
      by (by rewrite string_length_app).
    apply substring_all.
  - apply no_dash_dash. cbn [next_char]. rewrite has_dash_dash_snoc.
    + destruct (has_dash_dash pre) eqn:Hpre; [|done].
      destruct (has_dash_dash_inv pre Hpre) as (a & b & Heq).
      by destruct (Hdash a b).
    + destruct Hq as [->| ->]; reflexivity.
Qed.

Lemma X22_witness :
  strip_line ("SELECT " +:+ String DQUOTE "a -- b") =
  "SELECT " +:+ String DQUOTE "a -- b".
Proof.
  apply X22_open_quote_keeps_the_rest;
    [reflexivity|reflexivity|by apply no_dash_dash|by right
    |reflexivity|reflexivity].
Defined.
